(** * ProperImage: the flat-file array store and the ensemble orchestrator

    A shallow embedding of [properimage/numpydb.py] (classes [NumPyDB] and
    [NumPyDB_cPickle]) and of the orchestration code of
    [properimage/image_ensemble.py] (class [ImageEnsemble]), with the
    properties of the specification stated and proved over it.

    Python 2 byte strings ([str]) are lists of characters, the file system is
    a finite map from paths to file contents, exceptions are an explicit
    error type. The pixels of the arrays are values of any type with an
    addition; numpy's [float64] is the instance with the binary64 addition
    of [PrimFloat]. *)

From Stdlib Require Import ZArith Ascii String.
From Stdlib Require Import Zdivisibility.
From Stdlib Require Znumtheory.
From Stdlib Require PrimFloat.
From stdpp Require Import base list gmap strings.

Local Open Scope Z_scope.

(** ** Exceptions and results *)

Inductive exn : Type :=
  | IOError        (* a backing file is missing *)
  | LookupError    (* "Identifier not found" *)
  | ValueError     (* int() on a malformed literal *)
  | IndexError     (* c[0] on an empty list *)
  | PickleError    (* pickle.load on a truncated or foreign stream *)
  | OverflowError  (* an integer that does not fit a C Py_ssize_t *)
  | Blocked.       (* not an exception: the caller waits on a queue forever *)

Inductive result (A : Type) : Type :=
  | OK (a : A)
  | Raise (e : exn).
Arguments OK {A} a.
Arguments Raise {A} e.

Global Instance result_ret : MRet result := λ A, OK.

Global Instance result_bind : MBind result := λ A B k r,
  match r with
  | OK a => k a
  | Raise e => Raise e
  end.

(** A [for] loop that appends one computed record per element and stops at
    the first exception. *)
Fixpoint for_each {A B} (f : A → result B) (l : list A) : result (list B) :=
  match l with
  | [] => OK []
  | x :: l' => y ← f x; ys ← for_each f l'; OK (y :: ys)
  end.

(** ** Python 2 byte strings *)

Module PyStr.

Abbreviation str := (list ascii).

Definition lit (s : string) : str := list_ascii_of_string s.

Definition newline : ascii := "010"%char.
Definition space : ascii := " "%char.
Definition tab : ascii := "009"%char.

(** [c.isspace()] for a one-byte string: space, \t, \n, \v, \f, \r. *)
Definition is_space (c : ascii) : bool :=
  let n := nat_of_ascii c in
  (Nat.eqb n 32 || (Nat.leb 9 n && Nat.leb n 13))%bool.

(** [s.split()]: the maximal runs of non-whitespace characters. *)
Fixpoint split (s : str) : list str :=
  match s with
  | [] => []
  | c :: s' =>
      if is_space c then split s'
      else match s' with
           | [] => [[c]]
           | c' :: _ =>
               if is_space c' then [c] :: split s'
               else match split s' with
                    | t :: ts => (c :: t) :: ts
                    | [] => [[c]]
                    end
           end
  end.

(** [sep.join(l)]. *)
Fixpoint join (sep : str) (l : list str) : str :=
  match l with
  | [] => []
  | x :: l' =>
      match l' with
      | [] => x
      | _ :: _ => x ++ sep ++ join sep l'
      end
  end.

Fixpoint lstrip (s : str) : str :=
  match s with
  | [] => []
  | c :: s' => if is_space c then lstrip s' else s
  end.

(** [s.strip()]. *)
Definition strip (s : str) : str :=
  reverse (lstrip (reverse (lstrip s))).

(** Iterating over a text file: the lines, each with its terminating
    newline, the last one without when the file does not end in one. *)
Fixpoint readlines (s : str) : list str :=
  match s with
  | [] => []
  | c :: s' =>
      if decide (c = newline) then [c] :: readlines s'
      else match readlines s' with
           | l :: ls => (c :: l) :: ls
           | [] => [[c]]
           end
  end.

(** The decimal digits of ["%d" % n]. *)
Definition digit_char (d : Z) : ascii := ascii_of_nat (48 + Z.to_nat d).

Fixpoint digits_of (fuel : nat) (n : Z) (acc : str) : str :=
  let acc' := digit_char (n mod 10) :: acc in
  match fuel with
  | O => acc'
  | S f => if n <? 10 then acc' else digits_of f (n / 10) acc'
  end.

(** ["%d" % n]. *)
Definition fmt_d (n : Z) : str :=
  if n <? 0 then "-"%char :: digits_of (Z.to_nat (- n)) (- n) []
  else digits_of (Z.to_nat n) n [].

Definition digit_of (c : ascii) : option Z :=
  let n := nat_of_ascii c in
  if (Nat.leb 48 n && Nat.leb n 57)%bool then Some (Z.of_nat n - 48) else None.

Fixpoint parse_digits (acc : Z) (s : str) : option Z :=
  match s with
  | [] => Some acc
  | c :: s' =>
      match digit_of c with
      | Some d => parse_digits (10 * acc + d) s'
      | None => None
      end
  end.

Definition parse_nonempty (s : str) : result Z :=
  match s with
  | [] => Raise ValueError
  | _ :: _ =>
      match parse_digits 0 s with
      | Some v => OK v
      | None => Raise ValueError
      end
  end.

(** [int(s)] on a whitespace-free token: an optional sign and at least one
    decimal digit. *)
Definition py_int (s : str) : result Z :=
  match s with
  | c :: s' =>
      if decide (c = "-"%char) then v ← parse_nonempty s'; OK (- v)
      else if decide (c = "+"%char) then parse_nonempty s'
      else parse_nonempty s
  | [] => Raise ValueError
  end.

(** A character of a decimal literal is neither whitespace nor a sign. *)
Definition plain (c : ascii) : Prop :=
  is_space c = false ∧ c ≠ newline ∧ c ≠ "-"%char ∧ c ≠ "+"%char.

Definition nonspace (c : ascii) : Prop := is_space c = false.

(** What [split] produces: non-empty runs of non-whitespace characters. *)
Definition token (t : str) : Prop := t ≠ [] ∧ Forall nonspace t.

(** A string that neither starts nor ends with whitespace. *)
Definition trimmed (s : str) : Prop :=
  (∀ c, head s = Some c → nonspace c) ∧ (∀ c, last s = Some c → nonspace c).

End PyStr.
Import PyStr.

(** ** Identifiers as the map file keeps them *)

Module Ident.

(** [' '.join(identifier.split())]: the identifier with every run of
    whitespace turned into one space and none at its ends. *)
Definition normalize (identifier : str) : str := join [space] (split identifier).

(** Every whitespace character is a space that a non-whitespace character
    follows. *)
Fixpoint single_spaced (s : str) : bool :=
  match s with
  | [] => true
  | c :: s' =>
      if is_space c then
        bool_decide (c = space)
        && match s' with [] => false | c' :: _ => negb (is_space c') end
        && single_spaced s'
      else single_spaced s'
  end.

(** No leading or trailing whitespace, and internal whitespace only as
    single spaces. *)
Definition well_spaced (s : str) : bool :=
  match s with
  | [] => true
  | c :: _ => negb (is_space c) && single_spaced s
  end.

End Ident.

(** ** The flat-file array store ([numpydb.py]) *)

Module NumPyDB.

(** The file system: path to contents; an absent key is a missing file.
    A key is the path string as it is passed to [open]: two spellings of
    the path of one file are not identified, and every statement below is
    about one instance and the two paths it derives from its base name. *)
Abbreviation files := (gmap str str).

(** The two values of the [mode] argument that [__init__] acts on. *)
Inductive mode : Type := mode_store | mode_load.

(** The instance attributes: [filename] (from which [dn] and [pn] are
    derived) and the in-memory index [positions]. *)
Record t : Type := mk {
  filename : str;
  positions : list (Z * str)
}.

Definition dn_of (name : str) : str := name ++ lit ".dat".
Definition pn_of (name : str) : str := name ++ lit ".map".
Definition dn (db : t) : str := dn_of (filename db).
Definition pn (db : t) : str := pn_of (filename db).

(** The body of the loop over the lines of the map file:
    [c = line.split()] and the tuple
    [(int(c[0]), ' '.join(c[1:]).strip())]. *)
Definition parse_line (line : str) : result (Z * str) :=
  match split line with
  | [] => Raise IndexError
  | c0 :: rest => pos ← py_int c0; OK (pos, strip (join [space] rest))
  end.

(** [NumPyDB.__init__(database_name, mode)]. *)
Definition init (fs : files) (database_name : str) (m : mode)
  : files * result t :=
  match m with
  | mode_store =>
      let fs := <[dn_of database_name := []]> fs in
      let fs := <[pn_of database_name := []]> fs in
      (fs, OK (mk database_name []))
  | mode_load =>
      match fs !! dn_of database_name, fs !! pn_of database_name with
      | Some _, Some fm =>
          (fs, ps ← for_each parse_line (readlines fm);
               OK (mk database_name ps))
      | _, _ => (fs, Raise IOError)
      end
  end.

(** The search loop of [locate]: the values of [selected_pos] and
    [selected_id] when the loop ends. *)
Fixpoint locate_loop (ps : list (Z * str)) (identifier : str)
  : Z * option str :=
  match ps with
  | [] => (-1, None)
  | (pos, id) :: ps' =>
      if decide (id = identifier) then (pos, Some id)
      else locate_loop ps' identifier
  end.

(** [NumPyDB.locate(identifier)]. *)
Definition locate (db : t) (identifier : str) : result (Z * option str) :=
  let '(selected_pos, selected_id) := locate_loop (positions db) identifier in
  if selected_pos =? -1 then Raise LookupError
  else OK (selected_pos, selected_id).

Section cPickle.

Context {array : Type}.
(** [pickle.dump(a, fd, 1)] writes [pickle_dumps a];
    [pickle.load(fd)] reads one object from the current position. *)
Variable pickle_dumps : array → str.
Variable pickle_load : str → option array.

(** What one [dump] call appends to the map file. *)
Definition map_line (pos : Z) (identifier : str) : str :=
  fmt_d pos ++ [tab; tab; space] ++ identifier ++ [newline].

(** [NumPyDB_cPickle.dump(a, identifier)]; opening in append mode creates
    a missing file, and [fd.tell()] is the length of the data file. *)
Definition dump (fs : files) (db : t) (a : array) (identifier : str)
  : files * t :=
  let fd := default [] (fs !! dn db) in
  let fm := default [] (fs !! pn db) in
  let tell := Z.of_nat (length fd) in
  let fs := <[pn db := fm ++ map_line tell identifier]> fs in
  let db := mk (filename db) (positions db ++ [(tell, identifier)]) in
  let fs := <[dn db := fd ++ pickle_dumps a]> fs in
  (fs, db).

(** [NumPyDB_cPickle.load(identifier)]; the returned list of two items
    is a pair, [None] in its first place is Python's [None]. *)
Definition load (fs : files) (db : t) (identifier : str)
  : result (option array * option str) :=
  '(pos, id) ← locate db identifier;
  if pos <? 0 then OK (None, Some (lit "not found"))
  else
    match fs !! dn db with
    | None => Raise IOError
    | Some fd =>
        match pickle_load (drop (Z.to_nat pos) fd) with
        | Some a => OK (Some a, id)
        | None => Raise PickleError
        end
    end.

(** A sequence of [dump] calls on one instance. *)
Fixpoint dump_all (fs : files) (db : t) (l : list (array * str))
  : files * t :=
  match l with
  | [] => (fs, db)
  | (a, identifier) :: l' =>
      let '(fs, db) := dump fs db a identifier in dump_all fs db l'
  end.

(** A store-mode instance on [database_name] followed by the dumps [l]. *)
Definition store_session (fs : files) (database_name : str)
    (l : list (array * str)) : files * t :=
  dump_all (init fs database_name mode_store).1 (mk database_name []) l.

(** What the dumps [l] append to the data file, to the map file and to
    the index of an instance whose data file holds [base] bytes. *)
Definition data_of (l : list (array * str)) : str :=
  mjoin ((λ x, pickle_dumps x.1) <$> l).

Fixpoint map_from (base : nat) (l : list (array * str)) : str :=
  match l with
  | [] => []
  | (a, identifier) :: l' =>
      map_line (Z.of_nat base) identifier
        ++ map_from (base + length (pickle_dumps a)) l'
  end.

Fixpoint index_from (base : nat) (l : list (array * str))
  : list (Z * str) :=
  match l with
  | [] => []
  | (a, identifier) :: l' =>
      (Z.of_nat base, identifier)
        :: index_from (base + length (pickle_dumps a)) l'
  end.

End cPickle.

(** A map file whose only line gives the offset [pos] to the identifier
    [x], beside an empty data file. *)
Definition crafted_files (pos : str) : files :=
  <[pn_of (lit "db") := pos ++ [space] ++ lit "x" ++ [newline]]>
    (<[dn_of (lit "db") := []]> ∅).

(** The index read back from a map file: every identifier in its
    whitespace-normal form. *)
Definition reloaded (ps : list (Z * str)) : list (Z * str) :=
  (λ r, (r.1, Ident.normalize r.2)) <$> ps.

End NumPyDB.

(** A toy serialisation of bit vectors, ended by a stop mark, to run the
    store on. *)
Module ToyPickle.

Definition dumps (a : list bool) : str :=
  ((λ b : bool, if b then "1"%char else "0"%char) <$> a) ++ ["."%char].

Fixpoint loads (s : str) : option (list bool) :=
  match s with
  | [] => None
  | c :: s' =>
      if decide (c = "."%char) then Some []
      else if decide (c = "1"%char) then cons true <$> loads s'
      else if decide (c = "0"%char) then cons false <$> loads s'
      else None
  end.

End ToyPickle.

(** ** The ensemble orchestrator ([image_ensemble.py]) *)

Module ImageEnsemble.

(** *** The image list and the cached atoms *)

Section Atoms.

Context {path threshold : Type}.

(** A [SingleImage] instance: [oid] is the identity of the object, the
    other fields are the constructor's arguments. *)
Record SingleImage : Type := mkSingleImage {
  oid : nat;
  image : path;
  atom_pow_th : threshold
}.

(** The instance attributes; [_atoms = None] is [not hasattr(self,
    '_atoms')]. *)
Record t : Type := mk {
  imgl : list path;
  pow_th : threshold;
  _atoms : option (list SingleImage)
}.

(** [ImageEnsemble(imgpaths, pow_th)]. *)
Definition init (imgpaths : list path) (th : threshold) : t :=
  mk imgpaths th None.

(** The position a list index [i] denotes in a list of length [n]:
    a negative index counts from the end. *)
Definition index (n : nat) (i : Z) : result nat :=
  let j := if i <? 0 then i + Z.of_nat n else i in
  if (0 <=? j) && (j <? Z.of_nat n) then OK (Z.to_nat j)
  else Raise IndexError.

(** [self.imgl[i] = v]. *)
Definition __setitem__ (e : t) (i : Z) (v : path) : result t :=
  j ← index (length (imgl e)) i;
  OK (mk (<[j := v]> (imgl e)) (pow_th e) (_atoms e)).

(** [del self.imgl[i]]. *)
Definition __delitem__ (e : t) (i : Z) : result t :=
  j ← index (length (imgl e)) i;
  OK (mk (delete j (imgl e)) (pow_th e) (_atoms e)).

(** [self.imgl[i]]. *)
Definition __getitem__ (e : t) (i : Z) : result path :=
  j ← index (length (imgl e)) i;
  match imgl e !! j with
  | Some v => OK v
  | None => Raise IndexError
  end.

Definition __len__ (e : t) : Z := Z.of_nat (length (imgl e)).

(** The largest value of a C [Py_ssize_t], on a 64-bit build. *)
Definition PY_SSIZE_T_MAX : Z := 2 ^ 63 - 1.

(** [self.imgl.insert(i, v)]: [list.insert] converts its index to a
    [Py_ssize_t], which fails with [OverflowError] for an integer outside
    that type; an index that fits is clamped to the list. *)
Definition insert (e : t) (i : Z) (v : path) : result t :=
  if (- PY_SSIZE_T_MAX - 1 <=? i) && (i <=? PY_SSIZE_T_MAX) then
    let n := Z.of_nat (length (imgl e)) in
    let j := if i <? 0 then Z.max 0 (i + n) else Z.min i n in
    let k := Z.to_nat j in
    OK (mk (take k (imgl e) ++ v :: drop k (imgl e)) (pow_th e) (_atoms e))
  else Raise OverflowError.

(** [a is b] for two integers just returned by [len]: CPython keeps one
    shared object per value only for the small integers -5 .. 256, any
    other result of [len] is a fresh object. *)
Definition int_is (a b : Z) : bool :=
  (a =? b) && (-5 <=? a) && (a <=? 256).

(** [[SingleImage(im, imagefile=True, pow_th=self.pow_th) for im in
    self.imgl]]; [next] is the identity of the next object created. *)
Fixpoint materialize (next : nat) (th : threshold) (ims : list path)
  : nat * list SingleImage :=
  match ims with
  | [] => (next, [])
  | im :: ims' =>
      let '(next', l) := materialize (S next) th ims' in
      (next', mkSingleImage next im th :: l)
  end.

(** The [atoms] property, on the allocation counter and the instance;
    the list that a comprehension builds is a new object as well. *)
Definition atoms (s : nat * t) : (nat * t) * list SingleImage :=
  let '(next, e) := s in
  match _atoms e with
  | None =>
      let '(next', l) := materialize (S next) (pow_th e) (imgl e) in
      ((next', mk (imgl e) (pow_th e) (Some l)), l)
  | Some cached =>
      if negb (int_is (Z.of_nat (length cached))
                      (Z.of_nat (length (imgl e))))
      then
        let '(next', l) := materialize (S next) (pow_th e) (imgl e) in
        ((next', mk (imgl e) (pow_th e) (Some l)), l)
      else ((next, e), cached)
  end.

(** The mutations of the container interface. *)
Inductive mutation : Type :=
  | SetItem (i : Z) (v : path)
  | DelItem (i : Z)
  | Insert (i : Z) (v : path).

(** One mutation; a call that raises leaves the instance as it was. *)
Definition mutate (e : t) (m : mutation) : t :=
  match m with
  | SetItem i v =>
      match __setitem__ e i v with OK e' => e' | Raise _ => e end
  | DelItem i =>
      match __delitem__ e i with OK e' => e' | Raise _ => e end
  | Insert i v =>
      match insert e i v with OK e' => e' | Raise _ => e end
  end.

(** An access to [atoms], the mutations [ms], and a second access:
    whether the second access created new atoms. *)
Definition rematerialized (s : nat * t) (ms : list mutation) : bool :=
  let '((next, e), _) := atoms s in
  let e' := foldl mutate e ms in
  let '((next', _), _) := atoms (next, e') in
  negb (Nat.eqb next' next).

(** [_clean()], which [__exit__] calls: [anatom._clean()] on every atom
    that the [atoms] property gives; the result lists the objects on which
    the hook was called, in the order of the calls. *)
Definition _clean (s : nat * t) : (nat * t) * list nat :=
  let '(s', l) := atoms s in (s', oid <$> l).

(** The position at which [insert] puts the new item, for an index that
    fits a [Py_ssize_t]. *)
Definition insert_position (n : nat) (i : Z) : nat :=
  Z.to_nat (if i <? 0 then Z.max 0 (i + Z.of_nat n) else Z.min i (Z.of_nat n)).

End Atoms.

(** *** Coaddition *)

Section Coadd.

(** Pixel values with their addition; a pixel of a masked array is
    [None] where it is masked. An array is the sequence of its pixels,
    its shape the number of them. *)
Context {V : Type}.
Variable vadd : V → V → V.
Variable vzero : V.

Abbreviation pixel := (option V).
Abbreviation array := (list pixel).

Definition px_add (a b : pixel) : pixel :=
  match a, b with
  | Some x, Some y => Some (vadd x y)
  | _, _ => None
  end.

(** [np.zeros(shape)]. *)
Definition zeros (shape : nat) : array := replicate shape (Some vzero).

Definition arr_add (a b : array) : array := zip_with px_add a b.

(** [np.ma.add(a, b)] on arrays of one shape: the sum where both are
    valid, masked elsewhere. Unequal shapes are an error here (numpy's
    broadcasting is left out). *)
Definition ma_add (a b : array) : result array :=
  if Nat.eqb (length a) (length b) then OK (arr_add a b)
  else Raise ValueError.

(** Modelled from the spec: [utils.chunk_it] is not among the sources.
    It "partitions them into near-equal chunks", in order, with "chunk
    count ≤ requested worker count (smaller if atom count < worker
    count)"; when the worker count exceeds the atom count "chunking
    degenerates to one atom per worker for the available atoms". *)
Definition chunk_sizes (n w : nat) : list nat :=
  let k := Nat.min n w in
  match k with
  | O => []
  | S _ =>
      replicate (n mod k)%nat (n / k + 1)%nat
        ++ replicate (k - n mod k)%nat (n / k)%nat
  end.

(** Modelled from the spec: a chunk is "a contiguous, ordered subset of
    atoms"; the chunks are cut from the sequence one after the other. *)
Fixpoint take_chunks {A} (sizes : list nat) (l : list A) : list (list A) :=
  match sizes with
  | [] => []
  | n :: sizes' => take n l :: take_chunks sizes' (drop n l)
  end.

(** Modelled from the spec: [utils.chunk_it(seq, num)], the chunks of [seq]
    for [num] workers, of the sizes above. *)
Definition chunk_it {A} (seq : list A) (num : nat) : list (list A) :=
  take_chunks (chunk_sizes (length seq) num) seq.

(** The pixel of an array at a position; a position outside the array
    counts as masked. *)
Definition pixel_at (a : array) (i : nat) : pixel :=
  match a !! i with
  | Some p => p
  | None => None
  end.

(** The values that the arrays [l] hold at position [i], in the order of
    [l]; [None] when one of them is masked there. *)
Definition values_at (l : list array) (i : nat) : option (list V) :=
  mapM (λ a, pixel_at a i) l.

(** The values [vs] added one by one to [v], each new one on the left as in
    [np.ma.add(s_comp, S)]. *)
Definition chain_sum (v : V) (vs : list V) : V :=
  foldl (λ acc x, vadd x acc) v vs.

Context {atom : Type}.
(** The stacked contribution of an atom: a known array. *)
Variable s_component : atom → array.

(** Modelled from the spec: the [Combinator] process is not among the
    sources. In stack mode "each unit internally sums/stacks its chunk's
    contribution" and sends back "a single combined 2D array"; a worker
    that fails writes nothing to its queue. *)
Definition combinator_stack (chunk : list atom) : result array :=
  match chunk with
  | [] => Raise Blocked
  | a :: chunk' =>
      match
        foldl (λ S' x, S0 ← S'; ma_add (s_component x) S0)
              (OK (s_component a)) chunk'
      with
      | OK S0 => OK S0
      | Raise _ => Raise Blocked
      end
  end.

(** [ImageEnsemble.calculate_S(n_procs)], on the atoms of the ensemble:
    one worker per chunk, then the loop [S = np.ma.add(s_comp, S)] over
    the queues in launch order; [q.get()] and [pickle.loads] hand over
    what the worker computed. *)
Definition calculate_S (global_shape : nat) (atoms : list atom)
    (n_procs : nat) : result array :=
  queues ← for_each combinator_stack (chunk_it atoms n_procs);
  foldl (λ S' s_comp, S0 ← S'; ma_add s_comp S0)
        (OK (zeros global_shape)) queues.

(** The accumulation loop of [calculate_S] on what the queues deliver:
    [S = np.zeros(self.global_shape)], then [S = np.ma.add(s_comp, S)] for
    each queue. *)
Definition collect_S (global_shape : nat) (queues : list array)
  : result array :=
  foldl (λ S' s_comp, S0 ← S'; ma_add s_comp S0)
        (OK (zeros global_shape)) queues.

(** Modelled from the spec: the [Combinator] process in fourier mode
    "returns, per atom in its chunk, both a spatial-domain statistic and its
    Fourier-domain transform, as two parallel ordered sequences". *)
Definition combinator_fourier {img fimg : Type} (s_of : atom → img)
    (s_hat_of : atom → fimg) (chunk : list atom)
  : result (list img * list fimg) :=
  OK (s_of <$> chunk, s_hat_of <$> chunk).

(** The collection loop of [ImageEnsemble.calculate_R(n_procs)]:
    [S_stk.extend(s_list)] and [S_hat_stk.extend(s_hat_list)] over the queues
    in launch order. *)
Definition calculate_R_stacks {img fimg : Type} (s_of : atom → img)
    (s_hat_of : atom → fimg) (atoms : list atom) (n_procs : nat)
  : result (list img * list fimg) :=
  queues ← for_each (combinator_fourier s_of s_hat_of)
                    (chunk_it atoms n_procs);
  OK (foldl (λ stk q, (stk.1 ++ q.1, stk.2 ++ q.2)) ([], []) queues).

(** The two [extend] calls of that loop, on what the queues deliver. *)
Definition extend_stacks {img fimg : Type}
    (queues : list (list img * list fimg)) : list img * list fimg :=
  foldl (λ stk q, (stk.1 ++ q.1, stk.2 ++ q.2)) ([], []) queues.

(** Modelled from the spec: "the element-wise sum of those constants",
    pixel by pixel: at position [i] the sum of the values that the
    contributions of the atoms hold there, masked where one of them is. *)
Definition pixel_sum (atoms : list atom) (i : nat) : pixel :=
  foldr vadd vzero <$> values_at (s_component <$> atoms) i.

(** Modelled from the spec: what a worker in stack mode forms of the
    values of its chunk at one position, "each unit internally sums/stacks
    its chunk's contribution": the first value, then each next one added. *)
Definition chunk_sum (vs : list V) : V :=
  match vs with
  | [] => vzero
  | v :: vs' => chain_sum v vs'
  end.

(** Modelled from the spec: the value at position [i] when the chunks go to
    one worker each and their sums are accumulated "into a zero-initialized
    output array" in launch order; masked where a contribution is. *)
Definition chunked_pixel_sum (chunks : list (list atom)) (i : nat) : pixel :=
  chain_sum vzero
  <$> mapM (λ c, chunk_sum <$> values_at (s_component <$> c) i) chunks.

(** The element-wise masked sum of arrays, added one by one to zeros. *)
Definition sum_arrays (shape : nat) (l : list array) : array :=
  foldr arr_add (zeros shape) l.

(** The element-wise sum of the contributions of the atoms. *)
Definition elementwise_sum (global_shape : nat) (atoms : list atom)
  : array :=
  sum_arrays global_shape (s_component <$> atoms).

End Coadd.

End ImageEnsemble.

(** Contributions of four atoms to an image of one pixel, as [float64]
    values. *)
Module Float64.

Import PrimFloat.

Definition zero : float := 0%float.
Definition one : float := 1%float.

Definition contributions : list (list (option float)) :=
  [[Some 1e16%float]; [Some one]; [Some (-1e16)%float]; [Some one]].

(** [calculate_S] on these contributions; [np.zeros] is [0.0]. *)
Definition calculate_S (n_procs : nat) : result (list (option float)) :=
  ImageEnsemble.calculate_S PrimFloat.add zero (λ x, x) 1%nat
    contributions n_procs.

End Float64.

(** ** The layout helper of the plots ([plot.py]) *)

Module Plot.

(** [range(a, b)]. *)
Definition range (a b : Z) : list Z := seqZ a (b - a).

(** [max(l)] on a list that is not empty. *)
Definition py_max (l : list Z) : Z := foldr Z.max (default 0 (head l)) l.

(** [[d for d in range(2, n//2+1) if n % d == 0]]. *)
Definition divisors (n : Z) : list Z :=
  filter (λ d, n mod d = 0) (range 2 (n / 2 + 1)).

(** [[d for d in divisors if all(d % od != 0 for od in divisors if od != d)]]. *)
Definition prims (n : Z) : list Z :=
  filter (λ d, Forall (λ od, d mod od ≠ 0)
                      (filter (λ od, od ≠ d) (divisors n)))
         (divisors n).

(** [primes(n)]; [len(prims) is 0] compares with a small integer. *)
Definition primes (n : Z) : Z :=
  if ImageEnsemble.int_is (Z.of_nat (length (prims n))) 0 then n
  else py_max (prims n).

End Plot.

(** * Properties *)

(** ** Decimal literals *)

Module PyStrFacts.

#[local] Arguments digit_char : simpl never.
#[local] Arguments digit_of : simpl never.
#[local] Arguments is_space : simpl never.

Lemma digit_cases (d : Z) :
  0 ≤ d < 10 →
  d = 0 ∨ d = 1 ∨ d = 2 ∨ d = 3 ∨ d = 4 ∨ d = 5 ∨ d = 6 ∨ d = 7 ∨ d = 8
    ∨ d = 9.
Proof. lia. Qed.

Ltac each_digit d H :=
  destruct (digit_cases d H) as [->|[->|[->|[->|[->|[->|[->|[->|[->| ->]]]]]]]]].

Lemma digit_of_char (d : Z) : 0 ≤ d < 10 → digit_of (digit_char d) = Some d.
Proof. intros H. each_digit d H; reflexivity. Qed.

Lemma digit_char_plain (d : Z) :
  0 ≤ d < 10 →
  is_space (digit_char d) = false ∧ digit_char d ≠ newline
    ∧ digit_char d ≠ "-"%char ∧ digit_char d ≠ "+"%char.
Proof. intros H. each_digit d H; repeat split; done. Qed.

Lemma parse_digits_app (s1 s2 : str) (acc : Z) :
  parse_digits acc (s1 ++ s2)
  = match parse_digits acc s1 with
    | Some v => parse_digits v s2
    | None => None
    end.
Proof.
  revert acc. induction s1 as [|c s1 IH]; intros acc; [done|].
  cbn [app parse_digits]. destruct (digit_of c); [apply IH | done].
Qed.

Lemma digits_of_acc (fuel : nat) (n : Z) (acc : str) :
  digits_of fuel n acc = digits_of fuel n [] ++ acc.
Proof.
  revert n acc. induction fuel as [|f IH]; intros n acc; [done|].
  cbn [digits_of]. destruct (n <? 10); [done|].
  rewrite (IH _ (_ :: acc)), (IH _ [_]), <- app_assoc. done.
Qed.

Lemma parse_digits_of (fuel : nat) (n : Z) :
  0 ≤ n ≤ Z.of_nat fuel → parse_digits 0 (digits_of fuel n []) = Some n.
Proof.
  revert n. induction fuel as [|f IH]; intros n Hn; cbn [digits_of].
  - assert (n = 0) as -> by lia. reflexivity.
  - destruct (Z.ltb_spec n 10) as [Hlt|Hge].
    + rewrite Z.mod_small by lia. cbn [parse_digits].
      rewrite digit_of_char by lia. f_equal; lia.
    + rewrite digits_of_acc, parse_digits_app, IH.
      * cbn [parse_digits].
        rewrite digit_of_char by (apply Z.mod_pos_bound; lia).
        f_equal; pose proof (Z.div_mod n 10); lia.
      * split; [apply Z.div_pos; lia|].
        assert (n / 10 < n) by (apply Z.div_lt; lia). lia.
Qed.

Lemma digits_of_plain (fuel : nat) (n : Z) (acc : str) :
  Forall plain acc → Forall plain (digits_of fuel n acc).
Proof.
  revert n acc. induction fuel as [|f IH]; intros n acc Hacc;
    cbn [digits_of].
  - constructor; [|done]. apply digit_char_plain, Z.mod_pos_bound. lia.
  - assert (plain (digit_char (n mod 10)))
      by (apply digit_char_plain, Z.mod_pos_bound; lia).
    destruct (n <? 10); [by constructor|]. apply IH. by constructor.
Qed.

Lemma digits_of_cons (fuel : nat) (n : Z) :
  ∃ c s, digits_of fuel n [] = c :: s ∧ plain c ∧ Forall plain s.
Proof.
  pose proof (digits_of_plain fuel n [] (Forall_nil_2 _)) as H.
  destruct (digits_of fuel n []) as [|c s] eqn:E.
  - destruct fuel; cbn [digits_of] in E; [done|].
    destruct (n <? 10); [done|]. rewrite digits_of_acc in E.
    by destruct (digits_of fuel (n / 10) []).
  - inversion H; subst. eauto.
Qed.

(** [int("%d" % n) == n]. *)
Lemma py_int_fmt_d (n : Z) : py_int (fmt_d n) = OK n.
Proof.
  unfold fmt_d. destruct (Z.ltb_spec n 0) as [Hneg|Hpos].
  - unfold py_int. rewrite decide_True by done.
    destruct (digits_of_cons (Z.to_nat (- n)) (- n)) as (c & s & E & _ & _).
    pose proof (parse_digits_of (Z.to_nat (- n)) (- n)) as P.
    rewrite E in *. unfold parse_nonempty. rewrite P by lia.
    cbn. f_equal; lia.
  - destruct (digits_of_cons (Z.to_nat n) n) as (c & s & E & Hc & _).
    pose proof (parse_digits_of (Z.to_nat n) n) as P.
    rewrite E in *. destruct Hc as (_ & _ & Hm & Hp).
    unfold py_int. rewrite !decide_False by done.
    unfold parse_nonempty. by rewrite P by lia.
Qed.

(** *** Splitting on whitespace *)

Lemma split_unfold (c : ascii) (s : str) :
  split (c :: s)
  = if is_space c then split s
    else match s with
         | [] => [[c]]
         | c' :: _ =>
             if is_space c' then [c] :: split s
             else match split s with
                  | t :: ts => (c :: t) :: ts
                  | [] => [[c]]
                  end
         end.
Proof. reflexivity. Qed.

Lemma split_cons_nonspace (c : ascii) (s : str) :
  nonspace c → ∃ t ts, split (c :: s) = (c :: t) :: ts.
Proof.
  intros Hc. rewrite split_unfold, Hc. destruct s as [|c' s']; [by eauto|].
  destruct (is_space c'); [by eauto|].
  destruct (split (c' :: s')); eauto.
Qed.

Lemma split_token (t : str) (c : ascii) (s : str) :
  token t → is_space c = true → split (t ++ c :: s) = t :: split s.
Proof.
  intros [Hne Ht] Hc. induction t as [|x t IH]; [done|].
  inversion Ht as [|? ? Hx Ht']; subst.
  rewrite <- app_comm_cons, split_unfold, Hx. destruct t as [|y t].
  - cbn [app]. rewrite Hc. by rewrite (split_unfold c), Hc.
  - inversion Ht' as [|? ? Hy _]; subst.
    rewrite <- app_comm_cons, Hy, app_comm_cons, IH; done.
Qed.

Lemma split_snoc_space (s : str) (c : ascii) :
  is_space c = true → split (s ++ [c]) = split s.
Proof.
  intros Hc. induction s as [|x s IH].
  - cbn [app]. by rewrite split_unfold, Hc.
  - rewrite <- app_comm_cons, !(split_unfold x). destruct (is_space x); [done|].
    destruct s as [|y s].
    + cbn [app]. rewrite Hc. by rewrite split_unfold, Hc.
    + rewrite <- app_comm_cons. rewrite <- app_comm_cons in IH.
      by rewrite IH.
Qed.

Lemma split_tokens (s : str) : Forall token (split s).
Proof.
  induction s as [|c s IH]; [constructor|].
  rewrite split_unfold. destruct (is_space c) eqn:Hc; [done|].
  assert (token [c]) by (split; [done | by repeat constructor]).
  destruct s as [|c' s']; [by repeat constructor|].
  destruct (is_space c'); [by constructor|].
  destruct (split (c' :: s')) as [|t ts]; [by repeat constructor|].
  inversion IH as [|? ? [_ Ht] Hts]; subst. constructor; [|done].
  split; [done | by constructor].
Qed.

(** *** Joining tokens and stripping *)

Lemma join_cons_cons (sep x y : str) (l : list str) :
  join sep (x :: y :: l) = x ++ sep ++ join sep (y :: l).
Proof. reflexivity. Qed.

Lemma join_cons_char (sep : str) (c : ascii) (t : str) (ts : list str) :
  join sep ((c :: t) :: ts) = c :: join sep (t :: ts).
Proof. by destruct ts. Qed.

Lemma lstrip_nonspace (c : ascii) (s : str) :
  nonspace c → lstrip (c :: s) = c :: s.
Proof. intros Hc. cbn [lstrip]. by rewrite Hc. Qed.

Lemma strip_trimmed (s : str) : trimmed s → strip s = s.
Proof.
  intros [Hh Hl]. unfold strip.
  assert (lstrip s = s) as ->
    by (destruct s; [done | by apply lstrip_nonspace, Hh]).
  assert (lstrip (reverse s) = reverse s) as ->.
  { destruct (reverse s) as [|c r] eqn:E; [done|].
    apply lstrip_nonspace, Hl. by rewrite <- head_reverse, E. }
  apply reverse_involutive.
Qed.

Lemma token_trimmed (t : str) : token t → trimmed t.
Proof.
  intros [_ Ht]. split; intros c Hc.
  - destruct t; simplify_eq/=. by inversion Ht.
  - apply last_Some_elem_of in Hc. by eapply Forall_forall in Ht.
Qed.

Lemma join_tokens_trimmed (l : list str) :
  Forall token l → trimmed (join [space] l).
Proof.
  induction 1 as [|t l Ht Hl IH]; [done|].
  destruct l as [|t' l]; [by apply token_trimmed|].
  rewrite join_cons_cons. destruct IH as [_ IHl].
  destruct (token_trimmed t Ht) as [Hh _]. split; intros c Hc.
  - apply Hh. destruct Ht as [Hne _]. by destruct t.
  - apply IHl. rewrite !last_app in Hc.
    destruct (last (join [space] (t' :: l))) eqn:E; [done|].
    exfalso. apply last_None in E.
    inversion Hl as [|? ? [Hne' _] _]; subst.
    destruct t' as [|c' t']; [done|]. by rewrite join_cons_char in E.
Qed.

(** *** Lines of a file *)

Lemma readlines_line (l rest : str) :
  newline ∉ l →
  readlines (l ++ newline :: rest) = (l ++ [newline]) :: readlines rest.
Proof.
  induction l as [|c l IH]; intros Hl.
  - cbn [app readlines]. by rewrite decide_True.
  - apply not_elem_of_cons in Hl as [Hc Hl]. cbn [app readlines].
    rewrite decide_False by done. by rewrite IH.
Qed.

(** *** Whitespace-normalised identifiers *)

Import Ident.

Lemma single_spaced_unfold (c : ascii) (s : str) :
  single_spaced (c :: s)
  = if is_space c then
      bool_decide (c = space)
      && match s with [] => false | c' :: _ => negb (is_space c') end
      && single_spaced s
    else single_spaced s.
Proof. reflexivity. Qed.

Lemma normalize_single_spaced (s : str) :
  single_spaced s = true →
  ∀ c s', s = c :: s' →
    (nonspace c → normalize s = s) ∧ (is_space c = true → normalize s = s').
Proof.
  unfold normalize.
  induction s as [|x s IH]; intros Hs c s' E; [done|]. simplify_eq.
  rewrite single_spaced_unfold in Hs. split; intros Hc; rewrite Hc in Hs.
  - rewrite split_unfold, Hc. destruct s' as [|y s'']; [done|].
    destruct (is_space y) eqn:Hy.
    + destruct (IH Hs y s'' eq_refl) as [_ IH2]. specialize (IH2 Hy).
      rewrite single_spaced_unfold, Hy in Hs.
      apply andb_prop in Hs as [Hs _]. apply andb_prop in Hs as [Hsp Hnext].
      apply bool_decide_eq_true in Hsp. subst y.
      destruct s'' as [|z s'']; [done|]. apply negb_true_iff in Hnext.
      rewrite (split_unfold space), Hy in IH2 |- *.
      destruct (split_cons_nonspace z s'' Hnext) as (t & ts & Ez).
      rewrite Ez in IH2 |- *. rewrite join_cons_cons, IH2. done.
    + destruct (IH Hs y s'' eq_refl) as [IH1 _]. specialize (IH1 Hy).
      destruct (split_cons_nonspace y s'' Hy) as (t & ts & Ey).
      rewrite Ey in IH1 |- *. by rewrite join_cons_char, IH1.
  - apply andb_prop in Hs as [Hs Hrest]. apply andb_prop in Hs as [_ Hnext].
    destruct s' as [|y s'']; [done|]. apply negb_true_iff in Hnext.
    rewrite split_unfold, Hc.
    by destruct (IH Hrest y s'' eq_refl) as [IH1 _]; apply IH1.
Qed.

(** A well-spaced identifier is its own normal form. *)
Lemma normalize_well_spaced (s : str) :
  well_spaced s = true → normalize s = s.
Proof.
  destruct s as [|c s]; [done|]. cbn [well_spaced]. intros H.
  apply andb_prop in H as [Hc Hs]. apply negb_true_iff in Hc.
  by destruct (normalize_single_spaced (c :: s) Hs c s eq_refl) as [H1 _];
    apply H1.
Qed.

Lemma single_spaced_app (t r : str) :
  Forall nonspace t → single_spaced (t ++ r) = single_spaced r.
Proof.
  induction 1 as [|c t Hc _ IH]; [done|].
  rewrite <- app_comm_cons, single_spaced_unfold, Hc. done.
Qed.

Lemma single_spaced_token (t : str) : Forall nonspace t → single_spaced t = true.
Proof.
  intros Ht. rewrite <- (app_nil_r t). by rewrite single_spaced_app.
Qed.

Lemma join_tokens_single_spaced (l : list str) :
  Forall token l → single_spaced (join [space] l) = true.
Proof.
  induction 1 as [|t l [Hne Ht] Hl IH]; [done|].
  destruct l as [|t' l]; [by apply single_spaced_token|].
  rewrite join_cons_cons, single_spaced_app by done.
  cbn [app]. rewrite single_spaced_unfold.
  replace (is_space space) with true by reflexivity.
  rewrite IH, bool_decide_eq_true_2 by done.
  inversion Hl as [|? ? [Hne' Ht'] _]; subst.
  destruct t' as [|c' t']; [done|]. rewrite join_cons_char.
  inversion Ht' as [|? ? Hc' _]; subst. by rewrite Hc'.
Qed.

(** The normal form is well spaced. *)
Lemma well_spaced_normalize (s : str) : well_spaced (normalize s) = true.
Proof.
  unfold normalize. pose proof (split_tokens s) as H.
  pose proof (join_tokens_single_spaced _ H) as Hs.
  destruct (split s) as [|t ts]; [done|].
  inversion H as [|? ? [Hne Ht] _]; subst.
  destruct t as [|c t]; [done|]. rewrite join_cons_char in Hs |- *.
  cbn [well_spaced]. rewrite Hs. inversion Ht as [|? ? Hc _]; subst.
  by rewrite Hc.
Qed.

Lemma normalize_fixed_iff (s : str) :
  normalize s = s ↔ well_spaced s = true.
Proof.
  split; [|apply normalize_well_spaced].
  intros E. rewrite <- E. apply well_spaced_normalize.
Qed.

(** *** One line of the map file *)

Lemma fmt_d_token (n : Z) : token (fmt_d n) ∧ newline ∉ fmt_d n.
Proof.
  assert (∀ f m, Forall plain (digits_of f m [])) as Hd
    by (intros; by apply digits_of_plain).
  assert (∀ s : str, Forall plain s → Forall nonspace s ∧ newline ∉ s) as Hp.
  { intros s Hs. split.
    - eapply Forall_impl; [done|]. by intros c [? _].
    - intros Hin. eapply Forall_forall in Hs as (_ & Hn & _); [|done]. done. }
  unfold fmt_d. destruct (n <? 0).
  - destruct (Hp _ (Hd (Z.to_nat (- n)) (- n))) as [H1 H2]. repeat split.
    + done.
    + by constructor.
    + by apply not_elem_of_cons.
  - destruct (Hp _ (Hd (Z.to_nat n) n)) as [H1 H2].
    destruct (digits_of_cons (Z.to_nat n) n) as (c & s & E & _).
    repeat split; [by rewrite E | done | done].
Qed.

End PyStrFacts.

(** ** The array store *)

Module NumPyDBFacts.

Import NumPyDB Ident PyStrFacts.

Lemma dn_pn_ne (name : str) : dn_of name ≠ pn_of name.
Proof.
  unfold dn_of, pn_of. intros E. apply app_inv_head in E. discriminate E.
Qed.

(** *** The search loop *)

Lemma locate_loop_absent (ps : list (Z * str)) (identifier : str) :
  identifier ∉ ps.*2 → locate_loop ps identifier = (-1, None).
Proof.
  induction ps as [|[pos id] ps IH]; intros Hid; [done|].
  rewrite fmap_cons in Hid. apply not_elem_of_cons in Hid as [Hne Hid].
  cbn [locate_loop]. rewrite decide_False by done. by apply IH.
Qed.

Lemma locate_loop_first (ps1 ps2 : list (Z * str)) (pos : Z)
    (identifier : str) :
  identifier ∉ ps1.*2 →
  locate_loop (ps1 ++ (pos, identifier) :: ps2) identifier
  = (pos, Some identifier).
Proof.
  induction ps1 as [|[p id] ps1 IH]; intros Hid.
  - cbn [app locate_loop]. by rewrite decide_True.
  - rewrite fmap_cons in Hid. apply not_elem_of_cons in Hid as [Hne Hid].
    cbn [app locate_loop]. rewrite decide_False by done. by apply IH.
Qed.

(** The loop either finds nothing or stops at the first record that
    carries the identifier. *)
Lemma locate_loop_cases (ps : list (Z * str)) (identifier : str) :
  ((identifier ∉ ps.*2) ∧ locate_loop ps identifier = (-1, None))
  ∨ ∃ ps1 pos ps2,
      ps = ps1 ++ (pos, identifier) :: ps2 ∧ (identifier ∉ ps1.*2)
      ∧ locate_loop ps identifier = (pos, Some identifier).
Proof.
  destruct (decide (identifier ∈ ps.*2)) as [Hin|Hout].
  - right. induction ps as [|[p id] ps IH]; [by apply elem_of_nil in Hin|].
    destruct (decide (id = identifier)) as [->|Hne].
    + exists [], p, ps. repeat split; [apply not_elem_of_nil|].
      by apply (locate_loop_first []), not_elem_of_nil.
    + rewrite fmap_cons in Hin. apply elem_of_cons in Hin as [?|Hin]; [done|].
      destruct (IH Hin) as (ps1 & pos & ps2 & -> & Hps1 & Hl).
      exists ((p, id) :: ps1), pos, ps2. repeat split.
      * rewrite fmap_cons. by apply not_elem_of_cons.
      * cbn [app locate_loop]. by rewrite decide_False.
  - left. split; [done | by apply locate_loop_absent].
Qed.

Lemma locate_first (db : t) (ps1 ps2 : list (Z * str)) (pos : Z)
    (identifier : str) :
  positions db = ps1 ++ (pos, identifier) :: ps2 →
  identifier ∉ ps1.*2 → pos ≠ -1 →
  locate db identifier = OK (pos, Some identifier).
Proof.
  intros E Hid Hpos. unfold locate. rewrite E, locate_loop_first by done.
  destruct (Z.eqb_spec pos (-1)); done.
Qed.

Lemma locate_absent (db : t) (identifier : str) :
  identifier ∉ (positions db).*2 → locate db identifier = Raise LookupError.
Proof. intros H. unfold locate. by rewrite locate_loop_absent. Qed.

(** *** Sessions of dumps *)

Section Pickle.

Context {array : Type}.
Variable pickle_dumps : array → str.
Variable pickle_load : str → option array.

Abbreviation data_of := (data_of pickle_dumps).
Abbreviation map_from := (map_from pickle_dumps).
Abbreviation index_from := (index_from pickle_dumps).
Abbreviation dump_all := (dump_all pickle_dumps).

Lemma data_of_app (l1 l2 : list (array * str)) :
  data_of (l1 ++ l2) = data_of l1 ++ data_of l2.
Proof. unfold NumPyDB.data_of. by rewrite fmap_app, join_app. Qed.

Lemma data_of_cons (x : array * str) (l : list (array * str)) :
  data_of (x :: l) = pickle_dumps x.1 ++ data_of l.
Proof. reflexivity. Qed.

Lemma index_from_app (base : nat) (l1 l2 : list (array * str)) :
  index_from base (l1 ++ l2)
  = index_from base l1 ++ index_from (base + length (data_of l1)) l2.
Proof.
  revert base. induction l1 as [|[a id] l1 IH]; intros base.
  - cbn [app NumPyDB.index_from]. f_equal.
    unfold NumPyDB.data_of. cbn. lia.
  - cbn [app NumPyDB.index_from]. rewrite IH, data_of_cons, length_app.
    cbn [fst]. do 3 f_equal. lia.
Qed.

Lemma map_from_app (base : nat) (l1 l2 : list (array * str)) :
  map_from base (l1 ++ l2)
  = map_from base l1 ++ map_from (base + length (data_of l1)) l2.
Proof.
  revert base. induction l1 as [|[a id] l1 IH]; intros base.
  - cbn [app NumPyDB.map_from]. f_equal.
    unfold NumPyDB.data_of. cbn. lia.
  - cbn [app NumPyDB.map_from]. rewrite IH, data_of_cons, length_app.
    cbn [fst]. rewrite <- app_assoc. do 3 f_equal. lia.
Qed.

Lemma index_from_ids (base : nat) (l : list (array * str)) :
  (index_from base l).*2 = l.*2.
Proof.
  revert base. induction l as [|[a id] l IH]; intros base; [done|].
  cbn [NumPyDB.index_from]. rewrite !fmap_cons. by rewrite IH.
Qed.

Lemma index_from_length (base : nat) (l : list (array * str)) :
  length (index_from base l) = length l.
Proof. by rewrite <- (length_fmap snd), index_from_ids, length_fmap. Qed.

Lemma index_from_nonneg (base : nat) (l : list (array * str)) :
  Forall (λ r, 0 ≤ r.1) (index_from base l).
Proof.
  revert base. induction l as [|[a id] l IH]; intros base;
    cbn [NumPyDB.index_from]; constructor; [cbn; lia | apply IH].
Qed.

Lemma dump_unfold (fs : files) (db : t) (a : array) (identifier fd fm : str) :
  fs !! dn db = Some fd → fs !! pn db = Some fm →
  dump pickle_dumps fs db a identifier
  = (<[dn db := fd ++ pickle_dumps a]>
       (<[pn db := fm ++ map_line (Z.of_nat (length fd)) identifier]> fs),
     mk (filename db)
        (positions db ++ [(Z.of_nat (length fd), identifier)])).
Proof. intros Hd Hm. unfold dump. by rewrite Hd, Hm. Qed.

(** The effect of a sequence of dumps on the two files and the index. *)
Lemma dump_all_spec (l : list (array * str)) (fs : files) (db : t)
    (fd fm : str) :
  fs !! dn db = Some fd → fs !! pn db = Some fm →
  ∃ fs',
    dump_all fs db l
    = (fs', mk (filename db) (positions db ++ index_from (length fd) l))
    ∧ fs' !! dn db = Some (fd ++ data_of l)
    ∧ fs' !! pn db = Some (fm ++ map_from (length fd) l).
Proof.
  revert fs db fd fm.
  induction l as [|[a id] l IH]; intros fs db fd fm Hd Hm.
  - exists fs. cbn [NumPyDB.dump_all NumPyDB.index_from NumPyDB.map_from].
    unfold NumPyDB.data_of. cbn [fmap list_fmap mjoin list_join].
    rewrite !app_nil_r. by destruct db.
  - cbn [NumPyDB.dump_all]. rewrite (dump_unfold _ _ _ _ fd fm) by done.
    set (db1 := mk (filename db) (positions db ++ [(Z.of_nat (length fd), id)])).
    set (fs1 := <[dn db := fd ++ pickle_dumps a]>
                  (<[pn db := fm ++ map_line (Z.of_nat (length fd)) id]> fs)).
    destruct (IH fs1 db1 (fd ++ pickle_dumps a)
                (fm ++ map_line (Z.of_nat (length fd)) id))
      as (fs' & E & Hd' & Hm').
    + subst fs1. apply lookup_insert_eq.
    + subst fs1. rewrite lookup_insert_ne by apply dn_pn_ne.
      apply lookup_insert_eq.
    + exists fs'. rewrite E. subst db1. cbn [filename positions] in *.
      rewrite length_app in *. rewrite <- !app_assoc in *.
      rewrite data_of_cons. cbn [NumPyDB.index_from NumPyDB.map_from fst app].
      done.
Qed.

Lemma store_session_spec (fs0 : files) (name : str)
    (l : list (array * str)) :
  ∃ fs,
    store_session pickle_dumps fs0 name l = (fs, mk name (index_from 0 l))
    ∧ fs !! dn_of name = Some (data_of l)
    ∧ fs !! pn_of name = Some (map_from 0 l).
Proof.
  unfold store_session. cbn [init fst].
  destruct (dump_all_spec l
              (<[pn_of name := []]> (<[dn_of name := []]> fs0))
              (mk name []) [] []) as (fs & E & Hd & Hm).
  - unfold dn. cbn [filename].
    rewrite lookup_insert_ne by (apply not_eq_sym, dn_pn_ne).
    apply lookup_insert_eq.
  - apply lookup_insert_eq.
  - exists fs. by rewrite E.
Qed.

(** [pickle.load] reads back what [pickle.dump] wrote, whatever follows
    it in the file. *)
Hypothesis pickle_load_dumps :
  ∀ a rest, pickle_load (pickle_dumps a ++ rest) = Some a.

(** On the files and the index that the dumps [l1 ++ (a, id) :: l2]
    leave, with [id] not used in [l1]: [locate] gives the offset of that
    dump and [load] its array. *)
Lemma load_first (fs : files) (db : t) (l1 l2 : list (array * str))
    (a : array) (identifier : str) :
  positions db = index_from 0 (l1 ++ (a, identifier) :: l2) →
  fs !! dn db = Some (data_of (l1 ++ (a, identifier) :: l2)) →
  (identifier ∉ l1.*2) →
  locate db identifier
  = OK (Z.of_nat (length (data_of l1)), Some identifier)
  ∧ load pickle_load fs db identifier = OK (Some a, Some identifier).
Proof.
  intros Hps Hfd Hid. rewrite index_from_app in Hps.
  cbn [NumPyDB.index_from] in Hps.
  assert (locate db identifier
          = OK (Z.of_nat (length (data_of l1)), Some identifier)) as Hloc.
  { eapply locate_first; [exact Hps | by rewrite index_from_ids | lia]. }
  split; [done|]. unfold load. rewrite Hloc. cbn [mbind result_bind].
  destruct (Z.ltb_spec (Z.of_nat (length (data_of l1))) 0); [lia|].
  rewrite Hfd, Nat2Z.id, data_of_app, drop_app_length, data_of_cons.
  cbn [fst]. by rewrite pickle_load_dumps.
Qed.

Lemma dump_all_snoc (l : list (array * str)) (fs : files) (db : t)
    (a : array) (identifier : str) :
  dump_all fs db (l ++ [(a, identifier)])
  = let '(fs1, db1) := dump_all fs db l in
    dump pickle_dumps fs1 db1 a identifier.
Proof.
  revert fs db. induction l as [|[a' id'] l IH]; intros fs db.
  - cbn [app NumPyDB.dump_all]. by destruct (dump _ _ _ _ _).
  - cbn [app NumPyDB.dump_all]. destruct (dump _ fs db a' id'). apply IH.
Qed.

(** The first dump that used an identifier. *)
Lemma first_dump (l : list (array * str)) (identifier : str) :
  identifier ∈ l.*2 →
  ∃ l1 a l2, l = l1 ++ (a, identifier) :: l2 ∧ (identifier ∉ l1.*2).
Proof.
  induction l as [|[a id] l IH]; intros Hin; [by apply elem_of_nil in Hin|].
  destruct (decide (id = identifier)) as [->|Hne].
  - exists [], a, l. split; [done | apply not_elem_of_nil].
  - rewrite fmap_cons in Hin. apply elem_of_cons in Hin as [?|Hin]; [done|].
    destruct (IH Hin) as (l1 & a' & l2 & -> & Hl1).
    exists ((a, id) :: l1), a', l2. split; [done|].
    rewrite fmap_cons. by apply not_elem_of_cons.
Qed.

(** On a store-mode session [load] has two outcomes only. *)
Lemma load_session (fs0 : files) (name : str) (l : list (array * str))
    (identifier : str) :
  let '(fs, db) := store_session pickle_dumps fs0 name l in
  load pickle_load fs db identifier = Raise LookupError
  ∨ ∃ a, load pickle_load fs db identifier = OK (Some a, Some identifier).
Proof.
  destruct (store_session_spec fs0 name l) as (fs & -> & Hd & Hm).
  destruct (decide (identifier ∈ l.*2)) as [Hin|Hout].
  - right. destruct (first_dump l identifier Hin) as (l1 & a & l2 & -> & H1).
    exists a. by eapply load_first.
  - left. unfold load. rewrite locate_absent; [done|].
    cbn [positions]. by rewrite index_from_ids.
Qed.

End Pickle.

(** *** Indexes read from a map file *)

Lemma locate_raises (db : t) (identifier : str) (e : exn) :
  locate db identifier = Raise e → e = LookupError.
Proof.
  unfold locate. destruct (locate_loop _ _) as [p i].
  destruct (p =? -1); congruence.
Qed.

Lemma locate_returns (db : t) (identifier : str) (pos : Z)
    (sid : option str) :
  locate db identifier = OK (pos, sid) →
  sid = Some identifier ∧ (pos, identifier) ∈ positions db ∧ pos ≠ -1.
Proof.
  unfold locate.
  destruct (locate_loop_cases (positions db) identifier)
    as [[_ ->]|(ps1 & p & ps2 & E & _ & ->)]; [done|].
  destruct (Z.eqb_spec p (-1)); [done|]. intros [= <- <-].
  repeat split; [|done]. rewrite E. apply elem_of_app. right. left.
Qed.

End NumPyDBFacts.

Module ToyPickleFacts.

Import ToyPickle.

Lemma loads_dumps (a : list bool) (rest : str) :
  loads (dumps a ++ rest) = Some a.
Proof.
  unfold dumps. induction a as [|b a IH].
  - reflexivity.
  - cbn [fmap list_fmap app loads] in *. rewrite IH. by destruct b.
Qed.

End ToyPickleFacts.

(** * The properties of the specification *)

Import NumPyDB Ident PyStrFacts NumPyDBFacts.

(** ** Round trip of [dump] and [load] *)

(** C3. On an array store constructed in store mode, [dump(a, id)]
    followed by [load(id)] returns the array [a] together with the
    identifier [id], for every array, every identifier and whatever files
    were there before; [pickle.load] is taken to read back, from the place
    where it was written, what [pickle.dump] wrote. *)
Theorem dump_load_roundtrip {array : Type} (pickle_dumps : array → str)
    (pickle_load : str → option array) (fs0 : files) (name : str)
    (a : array) (identifier : str) :
  (∀ a rest, pickle_load (pickle_dumps a ++ rest) = Some a) →
  ∃ fs1 db1,
    NumPyDB.init fs0 name mode_store = (fs1, OK db1)
    ∧ let '(fs2, db2) := dump pickle_dumps fs1 db1 a identifier in
      load pickle_load fs2 db2 identifier = OK (Some a, Some identifier).
Proof.
  intros Hpickle. eexists _, _. split; [reflexivity|].
  destruct (store_session_spec pickle_dumps fs0 name [(a, identifier)])
    as (fs & E & Hd & _).
  unfold store_session in E. cbn [dump_all NumPyDB.init fst] in E.
  destruct (dump pickle_dumps _ _ a identifier) as [fs2 db2].
  injection E as -> ->.
  eapply (load_first pickle_dumps pickle_load Hpickle _ _ [] []).
  - done.
  - done.
  - cbn. apply not_elem_of_nil.
Qed.

Lemma dump_load_roundtrip_witness :
  ∃ fs1 db1,
    NumPyDB.init (crafted_files (lit "7")) (lit "db") mode_store
    = (fs1, OK db1)
    ∧ let '(fs2, db2) := dump ToyPickle.dumps fs1 db1 [true; false] (lit "a") in
      load ToyPickle.loads fs2 db2 (lit "a")
      = OK (Some [true; false], Some (lit "a")).
Proof.
  apply (dump_load_roundtrip ToyPickle.dumps ToyPickle.loads
           (crafted_files (lit "7")) (lit "db") [true; false] (lit "a")).
  apply ToyPickleFacts.loads_dumps.
Defined.

(** ** The first write wins *)

(** C4. After the dumps [l1 ++ (a, id) :: l2] on a store-mode instance, where
    [id] is not used in [l1] (and may be used again in [l2]), the record at
    position [length l1] of the index is the one of that first write,
    [locate(id)] returns it, and [load(id)] returns the array [a] of the first
    dump under [id]. *)
Theorem locate_returns_first_write {array : Type} (pickle_dumps : array → str)
    (pickle_load : str → option array) (fs0 : files) (name : str)
    (l1 l2 : list (array * str)) (a : array) (identifier : str) :
  (∀ a rest, pickle_load (pickle_dumps a ++ rest) = Some a) →
  (identifier ∉ l1.*2) →
  let '(fs, db) :=
    store_session pickle_dumps fs0 name (l1 ++ (a, identifier) :: l2) in
  let offset := Z.of_nat (length (data_of pickle_dumps l1)) in
  positions db !! length l1 = Some (offset, identifier)
  ∧ locate db identifier = OK (offset, Some identifier)
  ∧ load pickle_load fs db identifier = OK (Some a, Some identifier).
Proof.
  intros Hpickle Hid.
  destruct (store_session_spec pickle_dumps fs0 name
              (l1 ++ (a, identifier) :: l2)) as (fs & -> & Hd & _).
  cbv zeta. split.
  - cbn [positions]. rewrite index_from_app.
    rewrite lookup_app_r by (by rewrite index_from_length).
    by rewrite index_from_length, Nat.sub_diag.
  - by eapply load_first.
Qed.

Lemma locate_returns_first_write_witness :
  let '(fs, db) :=
    store_session ToyPickle.dumps ∅ (lit "db")
      ([([false], lit "b")]
         ++ ([true], lit "a") :: [([false; false], lit "a")]) in
  positions db !! 1%nat = Some (2, lit "a")
  ∧ locate db (lit "a") = OK (2, Some (lit "a"))
  ∧ load ToyPickle.loads fs db (lit "a") = OK (Some [true], Some (lit "a")).
Proof.
  apply (locate_returns_first_write ToyPickle.dumps ToyPickle.loads ∅
           (lit "db") [([false], lit "b")] [([false; false], lit "a")]
           [true] (lit "a")).
  - apply ToyPickleFacts.loads_dumps.
  - vm_compute. intros H. apply list_elem_of_singleton in H. discriminate H.
Defined.

(** ** Not found *)

(** C8, as amended. For every array store whose index holds no record with
    the offset -1 (the offsets that [dump] records are lengths of the data
    file), [locate(identifier)] raises the not-found error exactly when no
    record carries an identifier equal to the queried one; it raises nothing
    else, and what it returns is a record of the index with exactly the
    queried identifier. *)
Theorem locate_not_found_iff (db : t) (identifier : str) :
  Forall (λ r, r.1 ≠ -1) (positions db) →
  (locate db identifier = Raise LookupError ↔ identifier ∉ (positions db).*2)
  ∧ (∀ e, locate db identifier = Raise e → e = LookupError)
  ∧ (∀ pos sid, locate db identifier = OK (pos, sid) →
       sid = Some identifier ∧ (pos, identifier) ∈ positions db).
Proof.
  intros Hps. split; [|split].
  - split; [|apply locate_absent].
    intros Hraise Hin. unfold locate in Hraise.
    destruct (locate_loop_cases (positions db) identifier)
      as [[Hout _]|(ps1 & p & ps2 & E & _ & Hl)]; [done|].
    rewrite Hl in Hraise. rewrite E in Hps.
    apply Forall_app in Hps as [_ Hps]. inversion Hps as [|? ? Hp _]; subst.
    cbn [fst] in Hp. by destruct (Z.eqb_spec p (-1)).
  - apply locate_raises.
  - intros pos sid H. by destruct (locate_returns _ _ _ _ H) as (? & ? & _).
Qed.

Lemma locate_not_found_iff_witness :
  (locate (mk (lit "db") [(0, lit "a"); (7, lit "b")]) (lit "c")
   = Raise LookupError
   ↔ lit "c" ∉ (positions (mk (lit "db") [(0, lit "a"); (7, lit "b")])).*2)
  ∧ (∀ e, locate (mk (lit "db") [(0, lit "a"); (7, lit "b")]) (lit "c")
          = Raise e → e = LookupError)
  ∧ (∀ pos sid,
       locate (mk (lit "db") [(0, lit "a"); (7, lit "b")]) (lit "c")
       = OK (pos, sid) →
       sid = Some (lit "c")
       ∧ (pos, lit "c") ∈ positions (mk (lit "db") [(0, lit "a"); (7, lit "b")])).
Proof.
  apply (locate_not_found_iff (mk (lit "db") [(0, lit "a"); (7, lit "b")])
           (lit "c")).
  cbn [positions]. repeat constructor; cbn [fst]; lia.
Defined.

(** C8 as stated fails on an index read in load mode from a map file that
    gives the offset -1: the record is there and [locate] raises. *)
Lemma locate_not_found_with_record :
  ∃ db,
    (init (crafted_files (lit "-1")) (lit "db") mode_load).2 = OK db
    ∧ lit "x" ∈ (positions db).*2
    ∧ locate db (lit "x") = Raise LookupError.
Proof.
  exists (mk (lit "db") [(-1, lit "x")]).
  split; [by vm_compute|]. split; [|by vm_compute].
  cbn [positions fmap list_fmap snd]. apply list_elem_of_singleton.
  reflexivity.
Qed.

(** C9, as amended. For every array store whose recorded offsets are all
    non-negative, [load(identifier)] never returns the list of [None] and
    "not found": what it returns is an array with the queried identifier, and
    when [locate] raises, [load] raises the same not-found error. On a
    store-mode instance with the files that its dumps wrote, these two are
    the only outcomes, and every recorded offset is non-negative. *)
Theorem load_outcomes {array : Type} (pickle_dumps : array → str)
    (pickle_load : str → option array) (fs : files) (db : t) (fs0 : files)
    (name : str) (l : list (array * str)) (identifier : str) :
  (∀ a rest, pickle_load (pickle_dumps a ++ rest) = Some a) →
  Forall (λ r, 0 ≤ r.1) (positions db) →
  (∀ r, load pickle_load fs db identifier = OK r →
     ∃ a, r = (Some a, Some identifier))
  ∧ (∀ e, locate db identifier = Raise e →
       e = LookupError
       ∧ load pickle_load fs db identifier = Raise LookupError)
  ∧ (let '(fs', db') := store_session pickle_dumps fs0 name l in
     Forall (λ r, 0 ≤ r.1) (positions db')
     ∧ (load pickle_load fs' db' identifier = Raise LookupError
        ∨ ∃ a, load pickle_load fs' db' identifier
               = OK (Some a, Some identifier))).
Proof.
  intros Hpickle Hps. split; [|split].
  - intros r. unfold load.
    destruct (locate db identifier) as [[pos sid]|e] eqn:Hloc; [|done].
    destruct (locate_returns _ _ _ _ Hloc) as (-> & Hin & _).
    eapply Forall_forall in Hps; [|done]. cbn [mbind result_bind fst] in *.
    destruct (Z.ltb_spec pos 0); [lia|].
    destruct (fs !! dn db); [|done].
    destruct (pickle_load _); [|done]. intros [= <-]. eauto.
  - intros e Hloc. pose proof (locate_raises _ _ _ Hloc) as ->.
    split; [done|]. unfold load. by rewrite Hloc.
  - pose proof (load_session pickle_dumps pickle_load Hpickle fs0 name l
                  identifier) as H.
    destruct (store_session_spec pickle_dumps fs0 name l) as (fs' & E & _).
    rewrite E in *. split; [apply index_from_nonneg | done].
Qed.

Lemma load_outcomes_witness :
  let '(fs', db') :=
    store_session ToyPickle.dumps ∅ (lit "db")
      [([true], lit "a"); ([false], lit "b")] in
  Forall (λ r, 0 ≤ r.1) (positions db')
  ∧ (load ToyPickle.loads fs' db' (lit "b") = Raise LookupError
     ∨ ∃ a, load ToyPickle.loads fs' db' (lit "b")
            = OK (Some a, Some (lit "b"))).
Proof.
  apply (load_outcomes ToyPickle.dumps ToyPickle.loads ∅
           (mk (lit "db") [(0, lit "a")]) ∅ (lit "db")
           [([true], lit "a"); ([false], lit "b")] (lit "b")).
  - apply ToyPickleFacts.loads_dumps.
  - cbn [positions]. repeat constructor; cbn [fst]; lia.
Defined.

(** C9 as stated fails on an index read in load mode from a map file that
    gives a negative offset: [locate] returns it and [load] answers with the
    list of [None] and "not found". *)
Lemma load_not_found_list_reachable :
  ∃ db,
    (init (crafted_files (lit "-5")) (lit "db") mode_load).2 = OK db
    ∧ locate db (lit "x") = OK (-5, Some (lit "x"))
    ∧ load ToyPickle.loads (crafted_files (lit "-5")) db (lit "x")
      = OK (None, Some (lit "not found")).
Proof.
  exists (mk (lit "db") [(-5, lit "x")]). repeat split; by vm_compute.
Qed.

(** ** Reading the map file back *)

Module ReloadFacts.

Lemma for_each_length {A B} (f : A → result B) (l : list A) (ys : list B) :
  for_each f l = OK ys → length ys = length l.
Proof.
  revert ys. induction l as [|x l IH]; intros ys; cbn [for_each].
  - by intros [= <-].
  - destruct (f x); [|done]. cbn [mbind result_bind].
    destruct (for_each f l) as [ys'|]; [|done]. intros [= <-].
    cbn [length]. f_equal. by apply IH.
Qed.

Lemma for_each_raise {A B} (f : A → result B) (l : list A) (e : exn) :
  for_each f l = Raise e → ∃ x, x ∈ l ∧ f x = Raise e.
Proof.
  induction l as [|x l IH]; cbn [for_each]; [done|].
  destruct (f x) eqn:Hx; cbn [mbind result_bind].
  - destruct (for_each f l); [done|]. intros [= <-].
    destruct IH as (y & Hy & E); [done|]. exists y. split; [by right | done].
  - intros [= <-]. exists x. split; [by left | done].
Qed.

Lemma py_int_raises (s : str) (e : exn) : py_int s = Raise e → e = ValueError.
Proof.
  assert (∀ s', parse_nonempty s' = Raise e → e = ValueError) as Hp.
  { intros [|c s']; cbn [parse_nonempty]; [congruence|].
    destruct (parse_digits _ _); congruence. }
  destruct s as [|c s]; cbn [py_int]; [congruence|].
  destruct (decide _); [|destruct (decide _); by apply Hp].
  destruct (parse_nonempty s) eqn:E; cbn [mbind result_bind]; [done|].
  intros [= <-]. by apply (Hp s).
Qed.

(** A line of the map file makes [__init__] raise [IndexError] or
    [ValueError], never the error of a missing file. *)
Lemma parse_line_raises (line : str) (e : exn) :
  parse_line line = Raise e → e = IndexError ∨ e = ValueError.
Proof.
  unfold parse_line. destruct (split line) as [|c0 rest]; [by left; congruence|].
  destruct (py_int c0) eqn:E; cbn [mbind result_bind]; [done|].
  intros [= <-]. right. by eapply py_int_raises.
Qed.

Lemma map_line_app (pos : Z) (identifier rest : str) :
  map_line pos identifier ++ rest
  = (fmt_d pos ++ [tab; tab; space] ++ identifier) ++ newline :: rest.
Proof. unfold map_line. by rewrite <- !app_assoc. Qed.

(** The line that [dump] wrote parses to the offset and the normal form of
    the identifier. *)
Lemma parse_line_map_line (pos : Z) (identifier : str) :
  parse_line (map_line pos identifier) = OK (pos, normalize identifier).
Proof.
  unfold parse_line, map_line. destruct (fmt_d_token pos) as [Htok _].
  cbn [app]. rewrite split_token by done.
  rewrite (split_unfold tab). replace (is_space tab) with true by reflexivity.
  rewrite (split_unfold space).
  replace (is_space space) with true by reflexivity.
  rewrite split_snoc_space by reflexivity.
  rewrite py_int_fmt_d. cbn [mbind result_bind].
  rewrite strip_trimmed; [done|]. apply join_tokens_trimmed, split_tokens.
Qed.

Section Dumps.

Context {array : Type}.
Variable pickle_dumps : array → str.

(** The map file of a session whose identifiers hold no newline reads
    back as the index of the session, identifiers normalised. *)
Lemma for_each_map_from (base : nat) (l : list (array * str)) :
  Forall (λ x, newline ∉ x.2) l →
  for_each parse_line (readlines (map_from pickle_dumps base l))
  = OK (reloaded (index_from pickle_dumps base l))
  ∧ length (readlines (map_from pickle_dumps base l)) = length l.
Proof.
  intros Hl. revert base.
  induction Hl as [|[a id] l Hid Hl IH]; intros base; [done|].
  cbn [map_from index_from]. rewrite map_line_app, readlines_line.
  - destruct (IH (base + length (pickle_dumps a))%nat) as [IH1 IH2].
    cbn [for_each length]. rewrite IH2.
    replace ((fmt_d (Z.of_nat base) ++ [tab; tab; space] ++ id)
               ++ [newline])
      with (map_line (Z.of_nat base) id)
      by (unfold map_line; by rewrite <- !app_assoc).
    rewrite parse_line_map_line, IH1. done.
  - destruct (fmt_d_token (Z.of_nat base)) as [_ Hn].
    rewrite !not_elem_of_app. repeat split; [done| |done].
    intros H. repeat (apply elem_of_cons in H as [H|H]; [done|]).
    by apply elem_of_nil in H.
Qed.

Lemma init_load_session (fs0 : files) (name : str)
    (l : list (array * str)) :
  Forall (λ x, newline ∉ x.2) l →
  let '(fs, db) := store_session pickle_dumps fs0 name l in
  init fs name mode_load = (fs, OK (mk name (reloaded (positions db))))
  ∧ ∃ fm, fs !! pn_of name = Some fm ∧ length (readlines fm) = length l.
Proof.
  intros Hl.
  destruct (store_session_spec pickle_dumps fs0 name l)
    as (fs & -> & Hd & Hm).
  destruct (for_each_map_from 0 l Hl) as [E Hlen].
  cbn [init positions]. rewrite Hd, Hm, E. split; [done | eauto].
Qed.

End Dumps.

Lemma well_spaced_no_newline (s : str) : well_spaced s = true → newline ∉ s.
Proof.
  intros Hs. assert (single_spaced s = true) as H.
  { destruct s; [done|]. cbn [well_spaced] in Hs.
    by apply andb_prop in Hs as [_ ?]. }
  clear Hs. induction s as [|c s IH]; [apply not_elem_of_nil|].
  rewrite single_spaced_unfold in H. apply not_elem_of_cons.
  destruct (is_space c) eqn:Hc.
  - apply andb_prop in H as [H Hs]. apply andb_prop in H as [H _].
    apply bool_decide_eq_true in H. subst c. split; [done | by apply IH].
  - split; [|by apply IH]. intros <-. by vm_compute in Hc.
Qed.

End ReloadFacts.

Import ReloadFacts.

(** C7, as amended. Constructing a store in load mode raises the error of a
    missing store exactly when the data file or the map file is absent; when
    the construction succeeds the index has one record per line of the map
    file; and on the files that a store-mode session of dumps wrote, with
    identifiers that hold no newline character, it succeeds with as many
    lines and records as there were dumps. *)
Theorem load_mode_init {array : Type} (pickle_dumps : array → str)
    (fs : files) (name : str) (fs0 : files) (l : list (array * str)) :
  Forall (λ x, newline ∉ x.2) l →
  ((init fs name mode_load).2 = Raise IOError
   ↔ fs !! dn_of name = None ∨ fs !! pn_of name = None)
  ∧ (∀ db, (init fs name mode_load).2 = OK db →
       ∃ fm, fs !! pn_of name = Some fm
             ∧ length (positions db) = length (readlines fm))
  ∧ (∃ db fm,
       (init (store_session pickle_dumps fs0 name l).1 name mode_load).2
       = OK db
       ∧ (store_session pickle_dumps fs0 name l).1 !! pn_of name = Some fm
       ∧ length (readlines fm) = length l
       ∧ length (positions db) = length l).
Proof.
  intros Hl. split; [|split].
  - cbn [init]. destruct (fs !! dn_of name) as [fd|] eqn:Hd;
      destruct (fs !! pn_of name) as [fm|] eqn:Hm; cbn [snd];
      try (split; [by eauto | done]).
    split; [|by intros [|]].
    destruct (for_each parse_line (readlines fm)) eqn:E;
      cbn [mbind result_bind]; [done|].
    intros [= ->]. apply for_each_raise in E as (line & _ & E).
    by apply parse_line_raises in E as [|].
  - intros db. cbn [init]. destruct (fs !! dn_of name); [|done].
    destruct (fs !! pn_of name) as [fm|]; [|done]. cbn [snd].
    destruct (for_each parse_line (readlines fm)) as [ps|] eqn:E;
      cbn [mbind result_bind]; [|done].
    intros [= <-]. exists fm. split; [done|]. cbn [positions].
    by eapply for_each_length.
  - pose proof (init_load_session pickle_dumps fs0 name l Hl) as H.
    destruct (store_session pickle_dumps fs0 name l) as [fs' db'].
    destruct H as (E & fm & Hm & Hlen). cbn [fst]. rewrite E.
    exists (mk name (reloaded (positions db'))), fm.
    repeat split; [done..|]. cbn [positions snd].
    pose proof (for_each_length parse_line (readlines fm)) as Hfe.
    cbn [init] in E. rewrite Hm in E.
    destruct (fs' !! dn_of name); [|done].
    destruct (for_each parse_line (readlines fm)) as [ps|]; [|done].
    cbn [mbind result_bind] in E. injection E as E.
    rewrite <- E, (Hfe ps eq_refl). done.
Qed.

Lemma load_mode_init_witness :
  ∃ db fm,
    (init (store_session ToyPickle.dumps ∅ (lit "db")
             [([true], lit "a"); ([false], lit "b  c")]).1
          (lit "db") mode_load).2 = OK db
    ∧ (store_session ToyPickle.dumps ∅ (lit "db")
         [([true], lit "a"); ([false], lit "b  c")]).1 !! pn_of (lit "db")
      = Some fm
    ∧ length (readlines fm) = 2%nat
    ∧ length (positions db) = 2%nat.
Proof.
  apply (load_mode_init ToyPickle.dumps ∅ (lit "db") ∅
           [([true], lit "a"); ([false], lit "b  c")]).
  repeat (apply Forall_cons_2;
          [by apply (bool_decide_unpack _); vm_compute|]).
  apply Forall_nil_2.
Defined.

(** C7 as stated fails for an identifier that holds a newline: one dump
    leaves two lines in the map file, and the index read back has two
    records. *)
Lemma load_mode_index_longer :
  ∃ db,
    (init (store_session ToyPickle.dumps ∅ (lit "db")
             [([true], lit "a" ++ [newline] ++ lit "7 b")]).1
          (lit "db") mode_load).2 = OK db
    ∧ length (positions db)
      ≠ length [([true], lit "a" ++ [newline] ++ lit "7 b")].
Proof.
  exists (mk (lit "db") [(0, lit "a"); (7, lit "b")]).
  split; [by vm_compute | by cbn].
Qed.

(** ** The index of a load-mode instance against the one that wrote it *)

(** C10, as amended. After a store-mode session of dumps whose identifiers
    are each well spaced (no leading or trailing whitespace, single spaces as
    the only internal whitespace) or at least free of newline characters, a
    load-mode instance on the same base path is constructed, and its index is
    the index of the store-mode instance with every identifier in its
    whitespace-normal form. A well-spaced identifier is its own normal form,
    so that when all are well spaced the two indexes are equal record for
    record; any other identifier differs from its normal form. *)
Theorem reload_index {array : Type} (pickle_dumps : array → str)
    (fs0 : files) (name : str) (l : list (array * str)) :
  Forall (λ x, well_spaced x.2 = true ∨ newline ∉ x.2) l →
  let '(fs, db) := store_session pickle_dumps fs0 name l in
  ∃ db',
    init fs name mode_load = (fs, OK db')
    ∧ positions db' = reloaded (positions db)
    ∧ (Forall (λ x, well_spaced x.2 = true) l → positions db' = positions db)
    ∧ (∀ i pos id, positions db !! i = Some (pos, id) →
         positions db' !! i = Some (pos, normalize id)
         ∧ (well_spaced id = true → normalize id = id)
         ∧ (well_spaced id = false → normalize id ≠ id)).
Proof.
  intros Hl'.
  assert (Forall (λ x : array * str, newline ∉ x.2) l) as Hl.
  { eapply Forall_impl; [exact Hl'|]. intros x [Hx|Hx]; [|done].
    by apply well_spaced_no_newline. }
  pose proof (init_load_session pickle_dumps fs0 name l Hl) as H.
  destruct (store_session_spec pickle_dumps fs0 name l) as (fs & E & _).
  rewrite E in *. destruct H as [Hinit _].
  eexists. split; [exact Hinit|]. cbn [positions]. split; [done|]. split.
  - intros Hws. unfold reloaded. apply list_eq. intros i.
    rewrite list_lookup_fmap.
    destruct (index_from pickle_dumps 0 l !! i) as [[pos id]|] eqn:Hi;
      [|done].
    apply list_elem_of_lookup_2 in Hi as Hin.
    cbn [fmap option_fmap option_map fst snd]. do 2 f_equal.
    apply normalize_well_spaced.
    assert (id ∈ l.*2) as Hid.
    { rewrite <- (index_from_ids pickle_dumps 0).
      apply list_elem_of_fmap. by exists (pos, id). }
    apply list_elem_of_fmap in Hid as ([a id'] & -> & Hx).
    by eapply Forall_forall in Hws.
  - intros i pos id Hi. split; [|split].
    + unfold reloaded. by rewrite list_lookup_fmap, Hi.
    + apply normalize_well_spaced.
    + intros Hws Hfix. apply normalize_fixed_iff in Hfix. congruence.
Qed.

Lemma reload_index_witness :
  let '(fs, db) :=
    store_session ToyPickle.dumps ∅ (lit "db")
      [([true], lit "a b"); ([false], tab :: lit "c   d ")] in
  ∃ db',
    init fs (lit "db") mode_load = (fs, OK db')
    ∧ positions db' = reloaded (positions db)
    ∧ (Forall (λ x, well_spaced x.2 = true)
         [([true], lit "a b"); ([false], tab :: lit "c   d ")] →
       positions db' = positions db)
    ∧ (∀ i pos id, positions db !! i = Some (pos, id) →
         positions db' !! i = Some (pos, normalize id)
         ∧ (well_spaced id = true → normalize id = id)
         ∧ (well_spaced id = false → normalize id ≠ id)).
Proof.
  apply (reload_index ToyPickle.dumps ∅ (lit "db")
           [([true], lit "a b"); ([false], tab :: lit "c   d ")]).
  apply Forall_cons_2; [left; by vm_compute|].
  apply Forall_cons_2;
    [right; by apply (bool_decide_unpack _); vm_compute|].
  apply Forall_nil_2.
Defined.

(** C10 as stated fails for an identifier that violates the whitespace
    condition with a newline: the load-mode construction raises on the second
    line of the map file and no normalised identifier is read back. *)
Lemma reload_index_newline :
  well_spaced (lit "a" ++ [newline] ++ lit "b") = false
  ∧ normalize (lit "a" ++ [newline] ++ lit "b") = lit "a b"
  ∧ (init (store_session ToyPickle.dumps ∅ (lit "db")
             [([true], lit "a" ++ [newline] ++ lit "b")]).1
          (lit "db") mode_load).2 = Raise ValueError.
Proof. repeat split; by vm_compute. Qed.

(** ** Chunks *)

Module ChunkFacts.

Import ImageEnsemble.
Local Open Scope nat_scope.

Lemma take_chunks_length {A} (sizes : list nat) (l : list A) :
  length (take_chunks sizes l) = length sizes.
Proof.
  revert l. induction sizes as [|n sizes IH]; intros l; [done|].
  cbn [take_chunks length]. by rewrite IH.
Qed.

Lemma take_chunks_join {A} (sizes : list nat) (l : list A) :
  sum_list sizes = length l → mjoin (take_chunks sizes l) = l.
Proof.
  revert l. induction sizes as [|n sizes IH]; intros l Hsum.
  - cbn in *. symmetry in Hsum. by apply nil_length_inv in Hsum.
  - cbn [take_chunks mjoin list_join]. cbn in Hsum.
    rewrite IH by (rewrite length_drop; lia). apply take_drop.
Qed.

Lemma take_chunks_lengths {A} (sizes : list nat) (l : list A) :
  sum_list sizes ≤ length l → length <$> take_chunks sizes l = sizes.
Proof.
  revert l. induction sizes as [|n sizes IH]; intros l Hsum; [done|].
  cbn in Hsum. cbn [take_chunks fmap list_fmap].
  rewrite length_take_le by lia. f_equal.
  apply IH. rewrite length_drop. lia.
Qed.

Lemma chunk_sizes_length (n w : nat) :
  length (chunk_sizes n w) = n `min` w.
Proof.
  unfold chunk_sizes. destruct (n `min` w) as [|k] eqn:E; [done|].
  rewrite length_app, !length_replicate.
  pose proof (Nat.mod_upper_bound n (S k)). lia.
Qed.

Lemma chunk_sizes_sum (n w : nat) : 0 < w → sum_list (chunk_sizes n w) = n.
Proof.
  intros Hw. unfold chunk_sizes. destruct (n `min` w) as [|k] eqn:E; [cbn; lia|].
  rewrite sum_list_with_app, !sum_list_replicate.
  pose proof (Nat.mod_upper_bound n (S k)).
  pose proof (Nat.div_mod_eq n (S k)). nia.
Qed.

Lemma chunk_sizes_positive (n w : nat) : Forall (λ m, 0 < m) (chunk_sizes n w).
Proof.
  unfold chunk_sizes. destruct (n `min` w) as [|k] eqn:E; [constructor|].
  assert (0 < n / S k) by (apply Nat.div_str_pos; lia).
  apply Forall_app. split; apply Forall_replicate; lia.
Qed.

Lemma chunk_sizes_scarce (n w : nat) :
  n < w → chunk_sizes n w = replicate n 1.
Proof.
  intros Hn. unfold chunk_sizes. rewrite Nat.min_l by lia.
  destruct n as [|k]; [done|].
  rewrite Nat.Div0.mod_same, Nat.div_same by lia. cbn [replicate app].
  by rewrite Nat.sub_0_r.
Qed.

Lemma chunk_it_join {A} (atoms : list A) (W : nat) :
  0 < W → mjoin (chunk_it atoms W) = atoms.
Proof.
  intros HW. apply take_chunks_join. by apply chunk_sizes_sum.
Qed.

Lemma chunk_it_lengths {A} (atoms : list A) (W : nat) :
  0 < W → length <$> chunk_it atoms W = chunk_sizes (length atoms) W.
Proof.
  intros HW. apply take_chunks_lengths. by rewrite chunk_sizes_sum.
Qed.

Lemma chunk_it_nonempty {A} (atoms : list A) (W : nat) :
  0 < W → Forall (λ c, c ≠ []) (chunk_it atoms W).
Proof.
  intros HW. pose proof (chunk_sizes_positive (length atoms) W) as Hpos.
  rewrite <- (chunk_it_lengths atoms W HW), Forall_fmap in Hpos.
  eapply Forall_impl; [exact Hpos|]. intros c Hc ->. cbn in Hc. lia.
Qed.

(** In a list without repetitions an element is in one chunk only. *)
Lemma join_NoDup_unique {A} (ls : list (list A)) (x : A) (j j' : nat)
    (c c' : list A) :
  NoDup (mjoin ls) → ls !! j = Some c → ls !! j' = Some c' →
  x ∈ c → x ∈ c' → j = j'.
Proof.
  revert j j'. induction ls as [|l ls IH]; intros j j' Hnd Hj Hj' Hc Hc';
    [done|].
  cbn [mjoin list_join] in Hnd. apply NoDup_app in Hnd as (_ & Hdisj & Hnd).
  destruct j as [|j], j' as [|j']; cbn in Hj, Hj'; simplify_eq.
  - done.
  - exfalso. apply (Hdisj x Hc). apply list_elem_of_join.
    exists c'. split; [done|]. by eapply list_elem_of_lookup_2.
  - exfalso. apply (Hdisj x Hc'). apply list_elem_of_join.
    exists c. split; [done|]. by eapply list_elem_of_lookup_2.
  - f_equal. by eapply IH.
Qed.

(** The stacks that [calculate_R] collects hold the statistics of the atoms
    in the order of the atoms. *)
Lemma calculate_R_stacks_order {atom img fimg : Type} (s_of : atom → img)
    (s_hat_of : atom → fimg) (atoms : list atom) (W : nat) :
  0 < W →
  calculate_R_stacks s_of s_hat_of atoms W
  = OK (s_of <$> atoms, s_hat_of <$> atoms).
Proof.
  intros HW. unfold calculate_R_stacks.
  rewrite <- (chunk_it_join atoms W HW) at 2 3.
  generalize (chunk_it atoms W). intros chunks.
  assert (for_each (combinator_fourier s_of s_hat_of) chunks
          = OK ((λ c, (s_of <$> c, s_hat_of <$> c)) <$> chunks)) as ->.
  { induction chunks as [|c chunks IH]; [done|].
    cbn [for_each]. by rewrite IH. }
  cbn [mbind result_bind]. f_equal.
  assert (∀ (a : list img) (b : list fimg),
            foldl (λ stk q, (stk.1 ++ q.1, stk.2 ++ q.2)) (a, b)
              ((λ c : list atom, (s_of <$> c, s_hat_of <$> c)) <$> chunks)
            = (a ++ fmap (M:=list) s_of (mjoin chunks),
               b ++ fmap (M:=list) s_hat_of (mjoin chunks)))
    as H; [|apply (H [] [])].
  induction chunks as [|c chunks IH]; intros a b.
  - cbn. by rewrite !app_nil_r.
  - change (mjoin (c :: chunks)) with (c ++ mjoin chunks).
    cbn [fmap list_fmap foldl fst snd]. rewrite IH, !fmap_app, !app_assoc.
    done.
Qed.

End ChunkFacts.

Import ImageEnsemble ChunkFacts.

(** C2. For a positive worker count [W], the chunks of a list of atoms
    concatenate, in launch order, to the list itself, and none is empty; of
    atoms that are all different, each is in exactly one chunk. With at least
    [W] atoms there are exactly [W] chunks; with fewer atoms than workers there
    are as many chunks as atoms, fewer than [W], of one atom each. *)
Theorem chunk_it_partition {A} (atoms : list A) (W : nat) :
  (0 < W)%nat →
  mjoin (chunk_it atoms W) = atoms
  ∧ Forall (λ c, c ≠ []) (chunk_it atoms W)
  ∧ (NoDup atoms → ∀ x, x ∈ atoms →
       ∃ j c, chunk_it atoms W !! j = Some c ∧ x ∈ c
              ∧ ∀ j' c', chunk_it atoms W !! j' = Some c' → x ∈ c' → j' = j)
  ∧ ((W ≤ length atoms)%nat → length (chunk_it atoms W) = W)
  ∧ ((length atoms < W)%nat →
       length (chunk_it atoms W) = length atoms
       ∧ (length (chunk_it atoms W) < W)%nat
       ∧ Forall (λ c, length c = 1%nat) (chunk_it atoms W)).
Proof.
  intros HW.
  pose proof (chunk_it_join atoms W HW) as Hjoin.
  pose proof (chunk_it_lengths atoms W HW) as Hlens.
  split; [done|]. split; [by apply chunk_it_nonempty|].
  unfold chunk_it in *. split; [|split].
  - intros Hnd x Hx. rewrite <- Hjoin in Hx at 1.
    apply list_elem_of_join in Hx as (c & Hxc & Hc).
    apply list_elem_of_lookup in Hc as [j Hj]. exists j, c.
    repeat split; [done..|]. intros j' c' Hj' Hxc'.
    eapply (join_NoDup_unique _ x j' j c' c); try done. by rewrite Hjoin.
  - intros Hle. rewrite take_chunks_length, chunk_sizes_length. lia.
  - intros Hlt. rewrite take_chunks_length, chunk_sizes_length.
    repeat split; [lia..|].
    assert (Forall (λ m, m = 1%nat)
              (length <$> take_chunks (chunk_sizes (length atoms) W) atoms))
      as Hone
      by (rewrite Hlens, chunk_sizes_scarce by done; by apply Forall_replicate).
    rewrite Forall_fmap in Hone. eapply Forall_impl; [exact Hone|]. done.
Qed.

Lemma chunk_it_partition_witness :
  mjoin (chunk_it [10; 20; 30; 40; 50; 60; 70] 3) = [10; 20; 30; 40; 50; 60; 70]
  ∧ chunk_it [10; 20; 30; 40; 50; 60; 70] 3
    = [[10; 20; 30]; [40; 50]; [60; 70]]
  ∧ chunk_it [10; 20] 3 = [[10]; [20]].
Proof.
  split; [|by vm_compute].
  apply (chunk_it_partition [10; 20; 30; 40; 50; 60; 70] 3). lia.
Defined.

(** ** Coaddition *)

Module CoaddFacts.

Local Open Scope nat_scope.

Section Sums.

Context {V : Type}.
Variable vadd : V → V → V.
Variable vzero : V.
Hypothesis vadd_assoc : ∀ x y z, vadd x (vadd y z) = vadd (vadd x y) z.
Hypothesis vadd_comm : ∀ x y, vadd x y = vadd y x.
Hypothesis vadd_zero : ∀ x, vadd vzero x = x.

Abbreviation array := (list (option V)).
Abbreviation px_add := (px_add vadd).
Abbreviation arr_add := (arr_add vadd).
Abbreviation ma_add := (ma_add vadd).
Abbreviation zeros := (zeros vzero).
Abbreviation sum_arrays := (sum_arrays vadd vzero).

Lemma px_add_assoc (a b c : option V) :
  px_add a (px_add b c) = px_add (px_add a b) c.
Proof. destruct a, b, c; cbn; by rewrite ?vadd_assoc. Qed.

Lemma px_add_comm (a b : option V) : px_add a b = px_add b a.
Proof. destruct a, b; cbn; by rewrite ?(vadd_comm v). Qed.

Lemma arr_add_assoc (a b c : array) :
  arr_add a (arr_add b c) = arr_add (arr_add a b) c.
Proof.
  unfold ImageEnsemble.arr_add. revert b c.
  induction a as [|x a IH]; intros [|y b] [|z c]; cbn; try done.
  by rewrite px_add_assoc, IH.
Qed.

Lemma arr_add_comm (a b : array) : arr_add a b = arr_add b a.
Proof.
  unfold ImageEnsemble.arr_add. revert b.
  induction a as [|x a IH]; intros [|y b]; cbn; try done.
  by rewrite px_add_comm, IH.
Qed.

Lemma arr_add_zeros (a : array) : arr_add (zeros (length a)) a = a.
Proof.
  unfold ImageEnsemble.arr_add, ImageEnsemble.zeros.
  induction a as [|[x|] a IH]; cbn; [done|..]; by rewrite ?vadd_zero, IH.
Qed.

Lemma arr_add_zeros_shape (n : nat) (a : array) :
  length a = n → arr_add (zeros n) a = a.
Proof. intros <-. apply arr_add_zeros. Qed.

Lemma join_fmap_fmap {A B} (f : A → B) (ls : list (list A)) :
  mjoin (fmap f <$> ls) = f <$> mjoin ls.
Proof.
  induction ls as [|l ls IH]; [done|].
  change (mjoin (l :: ls)) with (l ++ mjoin ls).
  rewrite fmap_app, <- IH. done.
Qed.

Lemma arr_add_length (n : nat) (a b : array) :
  length a = n → length b = n → length (arr_add a b) = n.
Proof.
  intros Ha Hb. unfold ImageEnsemble.arr_add. rewrite length_zip_with. lia.
Qed.

Lemma ma_add_same_shape (n : nat) (a b : array) :
  length a = n → length b = n → ma_add a b = OK (arr_add a b).
Proof.
  intros Ha Hb. unfold ImageEnsemble.ma_add.
  by rewrite Ha, Hb, Nat.eqb_refl.
Qed.

Lemma sum_arrays_cons (n : nat) (a : array) (l : list array) :
  sum_arrays n (a :: l) = arr_add a (sum_arrays n l).
Proof. reflexivity. Qed.

Lemma sum_arrays_length (n : nat) (l : list array) :
  Forall (λ a, length a = n) l → length (sum_arrays n l) = n.
Proof.
  induction 1 as [|a l Ha _ IH]; cbn [ImageEnsemble.sum_arrays foldr].
  - apply length_replicate.
  - by apply arr_add_length.
Qed.

(** The accumulation loop [S = np.ma.add(s_comp, S)] adds the sum of the
    arrays it goes through to what [S] held. *)
Lemma accumulate (n : nat) (l : list array) (acc : array) :
  Forall (λ a, length a = n) l → length acc = n →
  foldl (λ S' s_comp, S0 ← S'; ma_add s_comp S0) (OK acc) l
  = OK (arr_add (sum_arrays n l) acc).
Proof.
  intros Hl. revert acc. induction Hl as [|a l Ha Hl IH]; intros acc Hacc.
  - cbn [foldl ImageEnsemble.sum_arrays foldr]. f_equal.
    by rewrite <- Hacc, arr_add_zeros.
  - cbn [foldl mbind result_bind].
    rewrite (ma_add_same_shape n) by done.
    rewrite IH by by apply arr_add_length.
    cbn [ImageEnsemble.sum_arrays foldr]. f_equal.
    rewrite arr_add_assoc. f_equal. apply arr_add_comm.
Qed.

Lemma sum_arrays_app (n : nat) (l1 l2 : list array) :
  Forall (λ a, length a = n) l2 →
  sum_arrays n (l1 ++ l2) = arr_add (sum_arrays n l1) (sum_arrays n l2).
Proof.
  intros Hl2. induction l1 as [|a l1 IH].
  - cbn [app ImageEnsemble.sum_arrays foldr].
    rewrite <- (sum_arrays_length n l2 Hl2) at 2.
    by rewrite arr_add_zeros.
  - rewrite <- app_comm_cons, !sum_arrays_cons.
    by rewrite IH, arr_add_assoc.
Qed.

(** Summing the sums of the chunks is summing everything. *)
Lemma sum_arrays_join (n : nat) (ls : list (list array)) :
  Forall (Forall (λ a, length a = n)) ls →
  sum_arrays n (sum_arrays n <$> ls) = sum_arrays n (mjoin ls).
Proof.
  induction 1 as [|l ls Hl Hls IH]; [done|].
  change (mjoin (l :: ls)) with (l ++ mjoin ls).
  rewrite fmap_cons, sum_arrays_cons, IH.
  by rewrite sum_arrays_app by by apply Forall_join.
Qed.

Context {atom : Type}.
Variable s_component : atom → array.

Abbreviation combinator_stack := (combinator_stack vadd s_component).
Abbreviation calculate_S := (calculate_S vadd vzero s_component).
Abbreviation elementwise_sum := (elementwise_sum vadd vzero s_component).

(** A worker in stack mode sends back the sum of its chunk. *)
Lemma combinator_stack_sum (n : nat) (chunk : list atom) :
  chunk ≠ [] → Forall (λ x, length (s_component x) = n) chunk →
  combinator_stack chunk = OK (elementwise_sum n chunk).
Proof.
  intros Hne Hc. destruct chunk as [|a chunk]; [done|].
  inversion Hc as [|? ? Ha Hc']; subst.
  unfold ImageEnsemble.combinator_stack, ImageEnsemble.elementwise_sum.
  rewrite <- (foldl_fmap (λ S' s_comp, S0 ← S'; ma_add s_comp S0)).
  rewrite (accumulate (length (s_component a)))
    by (by rewrite ?Forall_fmap).
  rewrite fmap_cons. cbn [ImageEnsemble.sum_arrays foldr].
  by rewrite arr_add_comm.
Qed.

Lemma for_each_combinator_stack (n : nat) (chunks : list (list atom)) :
  Forall (λ c, c ≠ []) chunks →
  Forall (Forall (λ x, length (s_component x) = n)) chunks →
  for_each combinator_stack chunks = OK (elementwise_sum n <$> chunks).
Proof.
  intros Hne Hcs. induction Hcs as [|c chunks Hc Hcs IH]; [done|].
  inversion Hne; subst. cbn [for_each].
  rewrite (combinator_stack_sum n), IH by done. done.
Qed.

(** [calculate_S] returns the sum of all the contributions, whatever the
    positive number of workers. *)
Lemma calculate_S_spec (n : nat) (atoms : list atom) (W : nat) :
  0 < W → Forall (λ x, length (s_component x) = n) atoms →
  calculate_S n atoms W = OK (elementwise_sum n atoms).
Proof.
  intros HW Hs. unfold ImageEnsemble.calculate_S.
  pose proof (chunk_it_join atoms W HW) as Hjoin.
  pose proof (chunk_it_nonempty atoms W HW) as Hne.
  assert (Forall (Forall (λ x, length (s_component x) = n))
            (chunk_it atoms W)) as Hcs.
  { apply Forall_forall. intros c Hc. apply Forall_forall. intros x Hx.
    eapply Forall_forall in Hs; [done|]. rewrite <- Hjoin.
    apply list_elem_of_join. eauto. }
  assert (Forall (Forall (λ a : array, length a = n))
            (fmap (M:=list) s_component <$> chunk_it atoms W)) as Hshapes.
  { rewrite Forall_fmap. eapply Forall_impl; [exact Hcs|].
    intros c Hc. unfold compose. rewrite Forall_fmap. exact Hc. }
  rewrite (for_each_combinator_stack n) by done.
  cbn [mbind result_bind].
  assert (elementwise_sum n <$> chunk_it atoms W
          = sum_arrays n <$> (fmap (M:=list) s_component <$> chunk_it atoms W))
    as -> by (by rewrite <- list_fmap_compose).
  rewrite (accumulate n).
  - f_equal. rewrite arr_add_comm, arr_add_zeros_shape.
    + rewrite sum_arrays_join, join_fmap_fmap, Hjoin by done. done.
    + apply sum_arrays_length. rewrite Forall_fmap.
      eapply Forall_impl; [exact Hshapes|]. intros l Hl.
      by apply sum_arrays_length.
  - rewrite Forall_fmap. eapply Forall_impl; [exact Hshapes|].
    intros l Hl. by apply sum_arrays_length.
  - apply length_replicate.
Qed.

(** *** Pixel by pixel, in the order of the additions

    None of what follows uses a law of the addition. *)

Lemma pixel_at_arr_add (a b : array) (i : nat) :
  pixel_at (arr_add a b) i = px_add (pixel_at a i) (pixel_at b i).
Proof.
  unfold pixel_at, ImageEnsemble.arr_add. rewrite lookup_zip_with.
  destruct (a !! i) as [[x|]|], (b !! i) as [[y|]|]; reflexivity.
Qed.

Lemma lookup_pixel_at (a : array) (i : nat) :
  i < length a → a !! i = Some (pixel_at a i).
Proof.
  intros Hi. unfold pixel_at.
  by destruct (lookup_lt_is_Some_2 a i Hi) as [p ->].
Qed.

Lemma pixel_at_zeros (n i : nat) : i < n → pixel_at (zeros n) i = Some vzero.
Proof.
  intros Hi. unfold pixel_at, ImageEnsemble.zeros.
  by rewrite lookup_replicate_2.
Qed.

(** The loop [S = np.ma.add(s_comp, S)] on arrays of one shape raises
    nothing. *)
Lemma accumulate_run (n : nat) (l : list array) (acc : array) :
  Forall (λ a, length a = n) l → length acc = n →
  foldl (λ S' s_comp, S0 ← S'; ma_add s_comp S0) (OK acc) l
  = OK (foldl (λ S0 s_comp, arr_add s_comp S0) acc l)
  ∧ length (foldl (λ S0 s_comp, arr_add s_comp S0) acc l) = n.
Proof.
  intros Hl. revert acc. induction Hl as [|a l Ha Hl IH]; intros acc Hacc.
  - done.
  - cbn [foldl mbind result_bind].
    rewrite (ma_add_same_shape n) by done.
    apply IH. by apply arr_add_length.
Qed.

Lemma pixel_at_run (l : list array) (acc : array) (i : nat) :
  pixel_at (foldl (λ S0 s_comp, arr_add s_comp S0) acc l) i
  = foldl (λ p s_comp, px_add (pixel_at s_comp i) p) (pixel_at acc i) l.
Proof.
  revert acc. induction l as [|a l IH]; intros acc; [done|].
  cbn [foldl]. by rewrite IH, pixel_at_arr_add.
Qed.

Lemma px_chain_masked {B} (f : B → option V) (bs : list B) :
  foldl (λ p b, px_add (f b) p) None bs = None.
Proof.
  induction bs as [|b bs IH]; [done|]. cbn [foldl].
  by destruct (f b).
Qed.

(** A chain of masked additions is masked when one of its terms is, and the
    chain of the values otherwise. *)
Lemma px_chain {B} (f : B → option V) (bs : list B) (v : V) :
  foldl (λ p b, px_add (f b) p) (Some v) bs
  = chain_sum vadd v <$> mapM f bs.
Proof.
  revert v. induction bs as [|b bs IH]; intros v; [done|].
  cbn [foldl mapM]. destruct (f b) as [y|]; cbn [ImageEnsemble.px_add].
  - rewrite IH. cbn [mbind option_bind].
    by destruct (mapM f bs).
  - apply px_chain_masked.
Qed.

Lemma mapM_Forall2 {A B C} (f : A → option C) (g : B → option C)
    (l : list A) (k : list B) :
  Forall2 (λ x y, f x = g y) l k → mapM f l = mapM g k.
Proof.
  induction 1 as [|x y l k Hxy _ IH]; [done|].
  cbn [mapM]. by rewrite Hxy, IH.
Qed.

Abbreviation pixel_sum := (pixel_sum vadd vzero s_component).
Abbreviation chunked_pixel_sum := (chunked_pixel_sum vadd vzero s_component).

(** A worker in stack mode, pixel by pixel. *)
Lemma combinator_stack_run (n : nat) (chunk : list atom) :
  chunk ≠ [] → Forall (λ x, length (s_component x) = n) chunk →
  ∃ Q, combinator_stack chunk = OK Q
       ∧ length Q = n
       ∧ ∀ i, pixel_at Q i
              = chunk_sum vadd vzero <$> values_at (s_component <$> chunk) i.
Proof.
  intros Hne Hc. destruct chunk as [|a chunk]; [done|].
  inversion Hc as [|? ? Ha Hc']; subst.
  unfold ImageEnsemble.combinator_stack.
  rewrite <- (foldl_fmap (λ S' s_comp, S0 ← S'; ma_add s_comp S0)).
  destruct (accumulate_run (length (s_component a)) (s_component <$> chunk)
              (s_component a)) as [-> Hlen]; [by rewrite Forall_fmap|done|].
  eexists. split; [done|]. split; [done|]. intros i.
  rewrite pixel_at_run. unfold values_at. rewrite fmap_cons. cbn [mapM].
  destruct (pixel_at (s_component a) i) as [y|].
  - rewrite px_chain. cbn [mbind option_bind].
    by destruct (mapM _ _).
  - apply px_chain_masked.
Qed.

Lemma for_each_combinator_run (n : nat) (chunks : list (list atom)) :
  Forall (λ c, c ≠ []) chunks →
  Forall (Forall (λ x, length (s_component x) = n)) chunks →
  ∃ Qs, for_each combinator_stack chunks = OK Qs
        ∧ Forall2 (λ c Q, length Q = n
                          ∧ ∀ i, pixel_at Q i
                                 = chunk_sum vadd vzero
                                   <$> values_at (s_component <$> c) i)
                  chunks Qs.
Proof.
  intros Hne Hcs. induction Hcs as [|c chunks Hc Hcs IH].
  - exists []. split; [done | constructor].
  - inversion Hne as [|? ? Hc0 Hne']; subst.
    destruct (IH Hne') as (Qs & E & HQs).
    destruct (combinator_stack_run n c Hc0 Hc) as (Q & EQ & HQ).
    exists (Q :: Qs). cbn [for_each]. rewrite EQ, E.
    split; [done | by constructor].
Qed.

(** [calculate_S] pixel by pixel, whatever the addition: the sums of the
    chunks, accumulated from zero in launch order. *)
Lemma calculate_S_chunked (n : nat) (atoms : list atom) (W : nat) :
  0 < W → Forall (λ x, length (s_component x) = n) atoms →
  ∃ S0, calculate_S n atoms W = OK S0
        ∧ length S0 = n
        ∧ ∀ i, i < n →
            S0 !! i = Some (chunked_pixel_sum (chunk_it atoms W) i).
Proof.
  intros HW Hs. unfold ImageEnsemble.calculate_S.
  pose proof (chunk_it_join atoms W HW) as Hjoin.
  pose proof (chunk_it_nonempty atoms W HW) as Hne.
  assert (Forall (Forall (λ x, length (s_component x) = n))
            (chunk_it atoms W)) as Hcs.
  { apply Forall_forall. intros c Hc. apply Forall_forall. intros x Hx.
    eapply Forall_forall in Hs; [done|]. rewrite <- Hjoin.
    apply list_elem_of_join. eauto. }
  destruct (for_each_combinator_run n _ Hne Hcs) as (Qs & -> & HQs).
  cbn [mbind result_bind].
  destruct (accumulate_run n Qs (zeros n)) as [-> Hlen].
  { clear -HQs. induction HQs as [|c Q cs Qs [HQ _] _ IH]; by constructor. }
  { apply length_replicate. }
  eexists. split; [done|]. split; [done|]. intros i Hi.
  rewrite lookup_pixel_at by lia. f_equal.
  rewrite pixel_at_run, pixel_at_zeros, px_chain by done.
  unfold ImageEnsemble.chunked_pixel_sum. f_equal.
  apply mapM_Forall2. clear -HQs.
  induction HQs as [|c Q cs Qs [_ HQ] _ IH]; by constructor.
Qed.

(** The sum of the contributions added to zeros, pixel by pixel. *)
Lemma elementwise_sum_pixel (n : nat) (atoms : list atom) (i : nat) :
  i < n → pixel_at (elementwise_sum n atoms) i = pixel_sum atoms i.
Proof.
  intros Hi.
  unfold ImageEnsemble.elementwise_sum, ImageEnsemble.pixel_sum, values_at.
  induction atoms as [|a atoms IH].
  - cbn. by apply pixel_at_zeros.
  - rewrite !fmap_cons, sum_arrays_cons, pixel_at_arr_add, IH.
    cbn [mapM].
    destruct (pixel_at (s_component a) i) as [y|]; [|done].
    cbn [mbind option_bind]. by destruct (mapM _ _).
Qed.

End Sums.

End CoaddFacts.

Import CoaddFacts.




(** The same contributions evaluated: the first pixel holds 6, the second is
    masked, with one, two or three workers. *)
Example calculate_S_masked_pixel :
  calculate_S Z.add 0 (λ x : list (option Z), x) 2
    [[Some 1; None]; [Some 2; Some 20]; [Some 3; Some 30]]
  <$> [1; 2; 3]%nat
  = [OK [Some 6; None]; OK [Some 6; None]; OK [Some 6; None]]
  ∧ pixel_sum Z.add 0 (λ x : list (option Z), x)
      [[Some 1; None]; [Some 2; Some 20]; [Some 3; Some 30]]
    <$> [0; 1]%nat
    = [Some 6; None].
Proof. by vm_compute. Qed.

(** With [float64] pixels the theorem gives the value of each pixel in the
    order of the additions: on the four contributions above, two workers
    leave (1 + -1e16) + ((1 + 1e16) + 0), which is 0, and four workers
    1 + (-1e16 + (1 + (1e16 + 0))), which is 1. *)
Example calculate_S_float64_two_workers :
  chunked_pixel_sum PrimFloat.add Float64.zero (λ x, x)
    (chunk_it Float64.contributions 2) 0
  = Some Float64.zero
  ∧ chunked_pixel_sum PrimFloat.add Float64.zero (λ x, x)
      (chunk_it Float64.contributions 4) 0
    = Some Float64.one.
Proof. by vm_compute. Qed.

(** Four atoms that each contribute a 4x4 array of ones, two workers: a 4x4
    array of fours. *)
Example calculate_S_four_ones :
  calculate_S Z.add 0 (λ x : list (option Z), x) 16
    (replicate 4 (replicate 16 (Some 1))) 2
  = OK (replicate 16 (Some 4)).
Proof. by vm_compute. Qed.

(** ** The cached atoms *)

Module AtomsFacts.

Local Open Scope nat_scope.

Section Atoms.

Context {path threshold : Type}.

Abbreviation ensemble := (@ImageEnsemble.t path threshold).

Lemma materialize_spec (next : nat) (th : threshold) (ims : list path) :
  (materialize next th ims).1 = next + length ims
  ∧ length (materialize next th ims).2 = length ims.
Proof.
  revert next. induction ims as [|im ims IH]; intros next.
  - cbn. lia.
  - cbn [materialize]. destruct (IH (S next)) as [IH1 IH2].
    destruct (materialize (S next) th ims) as [next' l].
    cbn [fst snd length] in *. lia.
Qed.

Lemma int_is_len (n m : nat) :
  int_is (Z.of_nat n) (Z.of_nat m) = true ↔ n = m ∧ n ≤ 256.
Proof.
  unfold int_is. rewrite !andb_true_iff, Z.eqb_eq, !Z.leb_le. lia.
Qed.

(** After an access the instance holds atoms for its image list. *)
Lemma atoms_cached (next : nat) (e : ensemble) :
  ∃ next' l,
    atoms (next, e) = ((next', mk (imgl e) (pow_th e) (Some l)), l)
    ∧ length l = length (imgl e) ∧ next ≤ next'.
Proof.
  pose proof (materialize_spec (S next) (pow_th e) (imgl e)) as [H1 H2].
  cbn [atoms]. destruct (_atoms e) as [cached|] eqn:Hc.
  - destruct (int_is _ _) eqn:His; cbn [negb].
    + apply int_is_len in His as [Hlen _]. exists next, cached.
      rewrite <- Hc. by destruct e.
    + destruct (materialize _ _ _) as [next' l]. exists next', l.
      cbn [fst snd] in *. repeat split; [done|lia].
  - destruct (materialize _ _ _) as [next' l]. exists next', l.
    cbn [fst snd] in *. repeat split; [done|lia].
Qed.

(** A mutation acts on the image list only. *)
Lemma mutate_cache (e : ensemble) (m : mutation) (c : option (list _)) :
  mutate (mk (imgl e) (pow_th e) c) m
  = mk (imgl (mutate e m)) (pow_th (mutate e m)) c.
Proof.
  destruct m as [i v|i|i v]; cbn [mutate].
  - unfold __setitem__. cbn [imgl pow_th _atoms].
    by destruct (index _ i).
  - unfold __delitem__. cbn [imgl pow_th _atoms].
    by destruct (index _ i).
  - unfold insert. cbn [imgl pow_th _atoms].
    by destruct (_ && _).
Qed.

Lemma mutations_cache (e : ensemble) (ms : list mutation)
    (c : option (list _)) :
  foldl mutate (mk (imgl e) (pow_th e) c) ms
  = mk (imgl (foldl mutate e ms)) (pow_th (foldl mutate e ms)) c.
Proof.
  revert e. induction ms as [|m ms IH]; intros e; [done|].
  cbn [foldl]. by rewrite mutate_cache, IH.
Qed.

(** The second access creates new atoms when the length of the image list
    has changed, and also whenever that length is above 256. *)
Lemma rematerialized_iff (next : nat) (e : ensemble)
    (ms : list mutation) :
  rematerialized (next, e) ms = true
  ↔ length (imgl (foldl mutate e ms)) ≠ length (imgl e)
    ∨ 256 < length (imgl e).
Proof.
  unfold rematerialized.
  destruct (atoms_cached next e) as (next1 & l & -> & Hl & _).
  rewrite mutations_cache. cbn [atoms _atoms imgl pow_th].
  pose proof (materialize_spec (S next1) (pow_th (foldl mutate e ms))
                (imgl (foldl mutate e ms))) as [H1 _].
  rewrite Hl. destruct (int_is _ _) eqn:His; cbn [negb].
  - apply int_is_len in His as [Hlen Hsmall].
    rewrite Nat.eqb_refl. cbn. split; [done | lia].
  - destruct (materialize _ _ _) as [next2 l2]. cbn [fst] in H1.
    assert (¬ (length (imgl e) = length (imgl (foldl mutate e ms))
               ∧ length (imgl e) ≤ 256)) as Hn
      by (rewrite <- int_is_len; congruence).
    destruct (Nat.eqb_spec next2 next1); [lia|]. cbn. split; [lia|done].
Qed.

End Atoms.

End AtomsFacts.

Import AtomsFacts.

(** C6, the code at the failing input. An ensemble of 257 image references,
    two accesses to [atoms] with no mutation in between or with a same-length
    replacement: the length of the image list has not changed and the second
    access creates new atoms all the same. With 256 references it does not. *)
Theorem atoms_rematerialized_at_same_length :
  length (imgl (foldl mutate (init (replicate 257 tt) tt) [SetItem 0 tt]))
  = length (imgl (init (replicate 257 tt) tt))
  ∧ rematerialized (0%nat, init (replicate 257 tt) tt) [] = true
  ∧ rematerialized (0%nat, init (replicate 257 tt) tt) [SetItem 0 tt] = true
  ∧ rematerialized (0%nat, init (replicate 256 tt) tt) [SetItem 0 tt] = false.
Proof. repeat split; by vm_compute. Qed.


(** * Further properties of the array store *)

Module StoreFacts.

Import NumPyDB.

(** What [for_each] returns pairs item by item with the list it went
    through. *)
Lemma for_each_Forall2 {A B} (f : A → result B) (l : list A) (ys : list B) :
  for_each f l = OK ys → Forall2 (λ x y, f x = OK y) l ys.
Proof.
  revert ys. induction l as [|x l IH]; intros ys; cbn [for_each].
  - intros [= <-]. constructor.
  - destruct (f x) as [y|] eqn:Hx; [|done]. cbn [mbind result_bind].
    destruct (for_each f l) as [ys'|]; [|done]. intros [= <-].
    constructor; [done | by apply IH].
Qed.

(** [for_each] stops at the first item that raises. *)
Lemma for_each_first_raise {A B} (f : A → result B) (good rest : list A)
    (bad : A) (e : exn) :
  Forall (λ x, ∃ y, f x = OK y) good → f bad = Raise e →
  for_each f (good ++ bad :: rest) = Raise e.
Proof.
  intros Hgood Hbad. induction Hgood as [|x good [y Hx] _ IH].
  - cbn [app for_each]. by rewrite Hbad.
  - cbn [app for_each]. by rewrite Hx, IH.
Qed.

Lemma join_tokens_well_spaced (l : list str) :
  Forall token l → well_spaced (join [space] l) = true.
Proof.
  intros H. pose proof (join_tokens_single_spaced _ H) as Hs.
  destruct l as [|t ts]; [done|].
  inversion H as [|? ? [Hne Ht] _]; subst.
  destruct t as [|c t]; [done|]. rewrite join_cons_char in Hs |- *.
  cbn [well_spaced]. rewrite Hs. inversion Ht as [|? ? Hc _]; subst.
  by rewrite Hc.
Qed.

(** The identifier that [__init__] reads from a line is well spaced, and the
    call of [strip] leaves the joined tokens as they are. *)
Lemma parse_line_well_spaced (line : str) (pos : Z) (id : str) :
  parse_line line = OK (pos, id) →
  well_spaced id = true ∧ id = join [space] (tail (split line)).
Proof.
  unfold parse_line. pose proof (split_tokens line) as Htok.
  destruct (split line) as [|c0 rest]; [done|].
  destruct (py_int c0); [|done]. cbn [mbind result_bind tail].
  inversion Htok as [|? ? _ Hrest]; subst.
  rewrite strip_trimmed by by apply join_tokens_trimmed.
  intros [= <- <-]. split; [by apply join_tokens_well_spaced | done].
Qed.

Lemma reloaded_well_spaced (ps : list (Z * str)) :
  Forall (λ r, well_spaced r.2 = true) ps → reloaded ps = ps.
Proof.
  induction 1 as [|[pos id] ps Hid _ IH]; [done|].
  unfold reloaded in *. rewrite fmap_cons, IH. cbn [fst snd] in *.
  by rewrite normalize_well_spaced.
Qed.

Section Pickle.

Context {array : Type}.
Variable pickle_dumps : array → str.
Variable pickle_load : str → option array.

Lemma index_from_well_spaced (base : nat) (l : list (array * str)) :
  Forall (λ x, well_spaced x.2 = true) l →
  Forall (λ r, well_spaced r.2 = true) (index_from pickle_dumps base l).
Proof.
  intros Hl. revert base. induction Hl as [|[a id] l Hid _ IH]; intros base;
    cbn [index_from]; constructor; [done | apply IH].
Qed.

Lemma index_from_lookup (base i : nat) (l : list (array * str)) (a : array)
    (id : str) :
  l !! i = Some (a, id) →
  index_from pickle_dumps base l !! i
  = Some (Z.of_nat (base + length (data_of pickle_dumps (take i l))), id)
  ∧ drop (length (data_of pickle_dumps (take i l))) (data_of pickle_dumps l)
    = pickle_dumps a ++ data_of pickle_dumps (drop (S i) l).
Proof.
  intros Hi. pose proof (take_drop_middle l i (a, id) Hi) as E.
  pose proof (lookup_lt_Some _ _ _ Hi) as Hlt.
  rewrite <- E at 1 4. split.
  - rewrite index_from_app.
    rewrite lookup_app_r by (rewrite index_from_length, length_take; lia).
    rewrite index_from_length, length_take.
    replace (i - i `min` length l)%nat with 0%nat by lia. done.
  - by rewrite data_of_app, drop_app_length, data_of_cons.
Qed.

Lemma index_from_ge (base j : nat) (l : list (array * str)) (p : Z) :
  (index_from pickle_dumps base l).*1 !! j = Some p → Z.of_nat base ≤ p.
Proof.
  revert base j. induction l as [|[a id] l IH]; intros base j; [done|].
  cbn [index_from]. rewrite fmap_cons. destruct j as [|j]; cbn.
  - intros [= <-]. lia.
  - intros H. apply IH in H. lia.
Qed.

Lemma index_from_increasing (base i j : nat) (l : list (array * str))
    (pi pj : Z) :
  (∀ a, pickle_dumps a ≠ []) → (i < j)%nat →
  (index_from pickle_dumps base l).*1 !! i = Some pi →
  (index_from pickle_dumps base l).*1 !! j = Some pj →
  pi < pj.
Proof.
  intros Hne. revert base i j.
  induction l as [|[a id] l IH]; intros base i j Hij; [done|].
  cbn [index_from]. rewrite fmap_cons.
  destruct j as [|j]; [lia|]. destruct i as [|i]; cbn.
  - intros [= <-] Hj. apply index_from_ge in Hj.
    specialize (Hne a). destruct (pickle_dumps a); [done|]. cbn in Hj. lia.
  - apply IH. lia.
Qed.

(** A session with well-spaced identifiers reads back as it was written. *)
Lemma init_load_well_spaced (fs0 : files) (name : str)
    (l : list (array * str)) :
  Forall (λ x, well_spaced x.2 = true) l →
  let '(fs, db) := store_session pickle_dumps fs0 name l in
  NumPyDB.init fs name mode_load = (fs, OK db).
Proof.
  intros Hl.
  assert (Forall (λ x : array * str, newline ∉ x.2) l) as Hnl
    by (eapply Forall_impl; [exact Hl|]; intros x; apply well_spaced_no_newline).
  pose proof (init_load_session pickle_dumps fs0 name l Hnl) as H.
  destruct (store_session_spec pickle_dumps fs0 name l) as (fs & E & _).
  rewrite E in *. destruct H as [-> _]. cbn [positions].
  by rewrite reloaded_well_spaced by by apply index_from_well_spaced.
Qed.

End Pickle.

End StoreFacts.

Import StoreFacts.

(** X1. After a store-mode session of dumps, the record at position [i] of
    the index carries the identifier of the [i]-th dump and the number of
    bytes that the earlier dumps wrote, and [pickle.load] at that offset of
    the data file reads the array of the [i]-th dump, also for an identifier
    that an earlier dump used. *)
Theorem record_locates_its_array {array : Type} (pickle_dumps : array → str)
    (pickle_load : str → option array) (fs0 : files) (name : str)
    (l : list (array * str)) (i : nat) (a : array) (identifier : str) :
  (∀ a rest, pickle_load (pickle_dumps a ++ rest) = Some a) →
  l !! i = Some (a, identifier) →
  let '(fs, db) := store_session pickle_dumps fs0 name l in
  ∃ pos fd,
    positions db !! i = Some (pos, identifier)
    ∧ pos = Z.of_nat (length (data_of pickle_dumps (take i l)))
    ∧ fs !! dn db = Some fd
    ∧ pickle_load (drop (Z.to_nat pos) fd) = Some a.
Proof.
  intros Hpickle Hi.
  destruct (store_session_spec pickle_dumps fs0 name l) as (fs & -> & Hd & _).
  destruct (index_from_lookup pickle_dumps 0 i l a identifier Hi) as [H1 H2].
  eexists _, _. split; [exact H1|]. split; [done|]. split; [exact Hd|].
  cbn [Nat.add]. by rewrite Nat2Z.id, H2, Hpickle.
Qed.

Lemma record_locates_its_array_witness :
  let '(fs, db) :=
    store_session ToyPickle.dumps ∅ (lit "db")
      [([true], lit "a"); ([false; false], lit "a")] in
  ∃ pos fd,
    positions db !! 1%nat = Some (pos, lit "a")
    ∧ pos = Z.of_nat (length (data_of ToyPickle.dumps
                                (take 1 [([true], lit "a");
                                         ([false; false], lit "a")])))
    ∧ fs !! dn db = Some fd
    ∧ ToyPickle.loads (drop (Z.to_nat pos) fd) = Some [false; false].
Proof.
  apply (record_locates_its_array ToyPickle.dumps ToyPickle.loads ∅
           (lit "db") [([true], lit "a"); ([false; false], lit "a")] 1
           [false; false] (lit "a")).
  - apply ToyPickleFacts.loads_dumps.
  - reflexivity.
Defined.

(** X2. When no array is serialised to the empty string, the offsets that a
    store-mode session records are strictly increasing in the order of the
    dumps, starting from 0. *)
Theorem offsets_strictly_increasing {array : Type}
    (pickle_dumps : array → str) (fs0 : files) (name : str)
    (l : list (array * str)) :
  (∀ a, pickle_dumps a ≠ []) →
  let db := (store_session pickle_dumps fs0 name l).2 in
  (∀ p, (positions db).*1 !! 0%nat = Some p → p = 0)
  ∧ ∀ i j pi pj, (i < j)%nat →
      (positions db).*1 !! i = Some pi → (positions db).*1 !! j = Some pj →
      pi < pj.
Proof.
  intros Hne.
  destruct (store_session_spec pickle_dumps fs0 name l) as (fs & -> & _).
  cbn [snd positions]. split.
  - destruct l as [|[a id] l]; [done|]. cbn. by intros p [= <-].
  - intros i j pi pj. by apply index_from_increasing.
Qed.

Lemma offsets_strictly_increasing_witness :
  let db :=
    (store_session ToyPickle.dumps ∅ (lit "db")
       [([true], lit "a"); ([], lit "b"); ([false], lit "a")]).2 in
  (positions db).*1 = [0; 2; 3]
  ∧ ∀ i j pi pj, (i < j)%nat →
      (positions db).*1 !! i = Some pi → (positions db).*1 !! j = Some pj →
      pi < pj.
Proof.
  split; [by vm_compute|].
  apply (offsets_strictly_increasing ToyPickle.dumps ∅ (lit "db")
           [([true], lit "a"); ([], lit "b"); ([false], lit "a")]).
  intros a. unfold ToyPickle.dumps. by destruct (_ <$> a).
Defined.

(** X3. After a store-mode session of dumps whose identifiers are all well
    spaced, constructing an instance in load mode on the same base path
    succeeds, leaves the files as they are, and gives an instance equal to the
    store-mode one: the same file name and the same index. *)
Theorem reopen_same_instance {array : Type} (pickle_dumps : array → str)
    (fs0 : files) (name : str) (l : list (array * str)) :
  Forall (λ x, well_spaced x.2 = true) l →
  let '(fs, db) := store_session pickle_dumps fs0 name l in
  NumPyDB.init fs name mode_load = (fs, OK db).
Proof. apply init_load_well_spaced. Qed.

Lemma reopen_same_instance_witness :
  let '(fs, db) :=
    store_session ToyPickle.dumps ∅ (lit "db")
      [([true], lit "a b"); ([false], lit "c")] in
  NumPyDB.init fs (lit "db") mode_load = (fs, OK db).
Proof.
  apply (reopen_same_instance ToyPickle.dumps ∅ (lit "db")
           [([true], lit "a b"); ([false], lit "c")]).
  repeat (apply Forall_cons_2; [by vm_compute|]). apply Forall_nil_2.
Defined.

(** X4. A store written in store mode with well-spaced identifiers and
    reopened in load mode can be extended: [dump(a, id)] on the load-mode
    instance, for an identifier not used before, followed by [load(id)]
    returns the array [a], and [load] of an identifier of the earlier session
    still returns the first array dumped under it. *)
Theorem dump_after_reopen {array : Type} (pickle_dumps : array → str)
    (pickle_load : str → option array) (fs0 : files) (name : str)
    (l1 l2 : list (array * str)) (a0 a : array) (id0 identifier : str) :
  (∀ a rest, pickle_load (pickle_dumps a ++ rest) = Some a) →
  Forall (λ x, well_spaced x.2 = true) (l1 ++ (a0, id0) :: l2) →
  (id0 ∉ l1.*2) → (identifier ∉ (l1 ++ (a0, id0) :: l2).*2) →
  let fs := (store_session pickle_dumps fs0 name (l1 ++ (a0, id0) :: l2)).1 in
  ∃ db',
    (NumPyDB.init fs name mode_load).2 = OK db'
    ∧ let '(fs2, db2) := dump pickle_dumps fs db' a identifier in
      load pickle_load fs2 db2 identifier = OK (Some a, Some identifier)
      ∧ load pickle_load fs2 db2 id0 = OK (Some a0, Some id0).
Proof.
  intros Hpickle Hws Hid0 Hid.
  pose proof (init_load_well_spaced pickle_dumps fs0 name _ Hws) as Hre.
  destruct (store_session_spec pickle_dumps fs0 name
              ((l1 ++ (a0, id0) :: l2) ++ [(a, identifier)]))
    as (fs2 & E2 & Hd2 & _).
  unfold store_session in *. rewrite dump_all_snoc in E2.
  destruct (NumPyDB.dump_all _ _ _ (l1 ++ (a0, id0) :: l2)) as [fs db].
  cbn [fst]. rewrite Hre. exists db. split; [done|]. rewrite E2. split.
  - by eapply load_first.
  - rewrite <- app_assoc in Hd2 |- *. cbn [app] in Hd2 |- *.
    by eapply load_first.
Qed.

Lemma dump_after_reopen_witness :
  let fs :=
    (store_session ToyPickle.dumps ∅ (lit "db")
       ([([false], lit "b")] ++ ([true], lit "a") :: [])).1 in
  ∃ db',
    (NumPyDB.init fs (lit "db") mode_load).2 = OK db'
    ∧ let '(fs2, db2) := dump ToyPickle.dumps fs db' [true; true] (lit "c") in
      load ToyPickle.loads fs2 db2 (lit "c")
      = OK (Some [true; true], Some (lit "c"))
      ∧ load ToyPickle.loads fs2 db2 (lit "a")
        = OK (Some [true], Some (lit "a")).
Proof.
  apply (dump_after_reopen ToyPickle.dumps ToyPickle.loads ∅ (lit "db")
           [([false], lit "b")] [] [true] [true; true] (lit "a") (lit "c")).
  - apply ToyPickleFacts.loads_dumps.
  - repeat (apply Forall_cons_2; [by vm_compute|]). apply Forall_nil_2.
  - by apply (bool_decide_unpack _); vm_compute.
  - by apply (bool_decide_unpack _); vm_compute.
Defined.

(** X5. Whatever the map file holds, every identifier in the index of a
    load-mode instance is well spaced: it is the tokens of its line after the
    first, joined by single spaces, which the call of [strip] leaves as they
    are. So [locate] on such an instance raises the not-found error for every
    identifier with leading or trailing whitespace, a tab or a run of
    spaces. *)
Theorem load_mode_identifiers_well_spaced (fs : files) (name : str)
    (db : NumPyDB.t) :
  (NumPyDB.init fs name mode_load).2 = OK db →
  Forall (λ r, well_spaced r.2 = true) (positions db)
  ∧ (∃ fm, fs !! pn_of name = Some fm
           ∧ (positions db).*2
             = (λ line, join [space] (tail (split line))) <$> readlines fm)
  ∧ ∀ identifier, well_spaced identifier = false →
      locate db identifier = Raise LookupError.
Proof.
  cbn [NumPyDB.init]. destruct (fs !! dn_of name); [|done].
  destruct (fs !! pn_of name) as [fm|]; [|done]. cbn [snd].
  destruct (for_each parse_line (readlines fm)) as [ps|] eqn:E; [|done].
  cbn [mbind result_bind]. intros [= <-]. cbn [positions].
  apply for_each_Forall2 in E.
  assert (Forall (λ r, well_spaced r.2 = true) ps) as Hws.
  { induction E as [|line [pos id] ? ? Hline _ IH]; constructor; [|done].
    by apply parse_line_well_spaced in Hline as [? _]. }
  split; [done|]. split.
  - exists fm. split; [done|].
    induction E as [|line [pos id] ? ? Hline _ IH]; [done|].
    rewrite !fmap_cons. apply parse_line_well_spaced in Hline as [_ ->].
    inversion Hws; subst. by rewrite IH.
  - intros identifier Hid. apply locate_absent. cbn [positions].
    intros Hin. apply list_elem_of_fmap in Hin as ([pos id] & -> & Hin).
    eapply Forall_forall in Hws; [|done]. cbn [snd] in *. congruence.
Qed.

Lemma load_mode_identifiers_well_spaced_witness :
  Forall (λ r, well_spaced r.2 = true)
    (positions (NumPyDB.mk (lit "db") [(-1, lit "x")]))
  ∧ (∃ fm, crafted_files (lit "-1") !! pn_of (lit "db") = Some fm
           ∧ (positions (NumPyDB.mk (lit "db") [(-1, lit "x")])).*2
             = (λ line, join [space] (tail (split line))) <$> readlines fm)
  ∧ ∀ identifier, well_spaced identifier = false →
      locate (NumPyDB.mk (lit "db") [(-1, lit "x")]) identifier
      = Raise LookupError.
Proof.
  apply (load_mode_identifiers_well_spaced (crafted_files (lit "-1"))
           (lit "db") (NumPyDB.mk (lit "db") [(-1, lit "x")])).
  by vm_compute.
Defined.

(** X6. With both files present, the construction in load mode raises at the
    first line of the map file that it cannot read: [IndexError] when that
    line is empty or all whitespace, [ValueError] when its first token is not
    an integer. *)
Theorem load_mode_first_bad_line (fs : files) (name fd fm : str)
    (good rest : list str) (bad : str) :
  fs !! dn_of name = Some fd → fs !! pn_of name = Some fm →
  readlines fm = good ++ bad :: rest →
  Forall (λ line, ∃ r, parse_line line = OK r) good →
  (split bad = [] → (NumPyDB.init fs name mode_load).2 = Raise IndexError)
  ∧ (∀ c0 ts e, split bad = c0 :: ts → py_int c0 = Raise e →
       (NumPyDB.init fs name mode_load).2 = Raise ValueError).
Proof.
  intros Hd Hm Hlines Hgood. cbn [NumPyDB.init]. rewrite Hd, Hm, Hlines.
  cbn [snd]. split.
  - intros Hbad.
    rewrite (for_each_first_raise parse_line good rest bad IndexError);
      [done..|]. unfold parse_line. by rewrite Hbad.
  - intros c0 ts e Hbad Hint. pose proof (py_int_raises _ _ Hint) as ->.
    rewrite (for_each_first_raise parse_line good rest bad ValueError);
      [done..|]. unfold parse_line. by rewrite Hbad, Hint.
Qed.

Lemma load_mode_first_bad_line_witness :
  (split [newline] = [] →
   (NumPyDB.init
      (store_session ToyPickle.dumps ∅ (lit "db")
         [([true], lit "a" ++ [newline])]).1
      (lit "db") mode_load).2 = Raise IndexError)
  ∧ (∀ c0 ts e, split [newline] = c0 :: ts → py_int c0 = Raise e →
       (NumPyDB.init
          (store_session ToyPickle.dumps ∅ (lit "db")
             [([true], lit "a" ++ [newline])]).1
          (lit "db") mode_load).2 = Raise ValueError).
Proof.
  apply (load_mode_first_bad_line
           (store_session ToyPickle.dumps ∅ (lit "db")
              [([true], lit "a" ++ [newline])]).1
           (lit "db") (lit "1.")
           (lit "0" ++ [tab; tab; space] ++ lit "a" ++ [newline; newline])
           [lit "0" ++ [tab; tab; space] ++ lit "a" ++ [newline]] []
           [newline]).
  - by vm_compute.
  - by vm_compute.
  - by vm_compute.
  - apply Forall_cons_2; [|apply Forall_nil_2].
    exists (0, lit "a"). by vm_compute.
Defined.

(** * Further properties of the ensemble *)

Module ContainerFacts.

Section Container.

Context {path threshold : Type}.

Abbreviation ensemble := (@ImageEnsemble.t path threshold).

(** A list index denotes a position when it is in [-n, n), and counts from
    the end when it is negative. *)
Lemma index_valid (n : nat) (i : Z) :
  - Z.of_nat n ≤ i < Z.of_nat n →
  index n i = OK (Z.to_nat (i mod Z.of_nat n))
  ∧ (Z.to_nat (i mod Z.of_nat n) < n)%nat.
Proof.
  intros Hi. unfold index.
  assert (0 ≤ i mod Z.of_nat n < Z.of_nat n) by (apply Z.mod_pos_bound; lia).
  split; [|lia]. destruct (Z.ltb_spec i 0).
  - replace (i mod Z.of_nat n) with (i + Z.of_nat n)
      by (apply Z.mod_unique with (-1); lia).
    destruct (Z.leb_spec 0 (i + Z.of_nat n)); [|lia].
    destruct (Z.ltb_spec (i + Z.of_nat n) (Z.of_nat n)); [done|lia].
  - rewrite Z.mod_small by lia.
    destruct (Z.leb_spec 0 i); [|lia].
    destruct (Z.ltb_spec i (Z.of_nat n)); [done|lia].
Qed.

Lemma index_invalid (n : nat) (i : Z) :
  i < - Z.of_nat n ∨ Z.of_nat n ≤ i → index n i = Raise IndexError.
Proof.
  intros Hi. unfold index. destruct (Z.ltb_spec i 0).
  - destruct (Z.leb_spec 0 (i + Z.of_nat n)); [|done].
    destruct (Z.ltb_spec (i + Z.of_nat n) (Z.of_nat n)); [lia|done].
  - destruct (Z.leb_spec 0 i); [|done].
    destruct (Z.ltb_spec i (Z.of_nat n)); [lia|done].
Qed.

Lemma index_bound (n : nat) (i : Z) (k : nat) :
  index n i = OK k → (k < n)%nat.
Proof.
  unfold index. destruct (_ && _) eqn:E; [|done]. intros [= <-].
  apply andb_prop in E as [E1 E2]. apply Z.leb_le in E1.
  apply Z.ltb_lt in E2. lia.
Qed.

(** [insert] with an index that fits a [Py_ssize_t]. *)
Lemma insert_fits (e : ensemble) (i : Z) (v : path) :
  - 2 ^ 63 ≤ i < 2 ^ 63 →
  insert e i v
  = OK (mk (take (insert_position (length (imgl e)) i) (imgl e)
              ++ v :: drop (insert_position (length (imgl e)) i) (imgl e))
           (pow_th e) (_atoms e)).
Proof.
  intros Hi. unfold insert, PY_SSIZE_T_MAX.
  destruct (Z.leb_spec (- (2 ^ 63 - 1) - 1) i); [|lia].
  destruct (Z.leb_spec i (2 ^ 63 - 1)); [|lia]. done.
Qed.

(** [insert] with an index that does not. *)
Lemma insert_overflow (e : ensemble) (i : Z) (v : path) :
  i < - 2 ^ 63 ∨ 2 ^ 63 ≤ i → insert e i v = Raise OverflowError.
Proof.
  intros Hi. unfold insert, PY_SSIZE_T_MAX.
  destruct (Z.leb_spec (- (2 ^ 63 - 1) - 1) i); [|done].
  destruct (Z.leb_spec i (2 ^ 63 - 1)); [lia|done].
Qed.

Lemma insert_position_bound (n : nat) (i : Z) : (insert_position n i ≤ n)%nat.
Proof. unfold insert_position. destruct (Z.ltb_spec i 0); lia. Qed.

End Container.

End ContainerFacts.

Import ContainerFacts.

(** X8. For an index [i] in [-n, n), with [n] the number of image
    references, [ensemble[i] = v] succeeds, [ensemble[i]] then gives [v], the
    length is unchanged, every index that denotes another position gives what
    it gave before, and the cached atoms are not touched. *)
Theorem setitem_getitem {path threshold : Type}
    (e : @ImageEnsemble.t path threshold) (i : Z) (v : path) :
  - __len__ e ≤ i < __len__ e →
  ∃ e',
    __setitem__ e i v = OK e'
    ∧ __getitem__ e' i = OK v
    ∧ __len__ e' = __len__ e
    ∧ (∀ j, index (length (imgl e)) j ≠ index (length (imgl e)) i →
         __getitem__ e' j = __getitem__ e j)
    ∧ _atoms e' = _atoms e.
Proof.
  unfold __len__. intros Hi.
  destruct (index_valid (length (imgl e)) i Hi) as [Hidx Hlt].
  unfold __setitem__, __getitem__. rewrite Hidx. cbn [mbind result_bind].
  eexists. split; [done|]. cbn [imgl _atoms]. rewrite length_insert, Hidx.
  cbn [mbind result_bind]. split; [by rewrite list_lookup_insert_eq|].
  split; [done|]. split; [|done].
  intros j Hj. destruct (index (length (imgl e)) j) as [k|]; [|done].
  cbn [mbind result_bind]. rewrite list_lookup_insert_ne; [done|congruence].
Qed.

Lemma setitem_getitem_witness :
  ∃ e',
    __setitem__ (ImageEnsemble.init [10; 20; 30] tt) (-1) 99 = OK e'
    ∧ __getitem__ e' (-1) = OK 99
    ∧ __len__ e' = __len__ (ImageEnsemble.init [10; 20; 30] tt)
    ∧ (∀ j, index 3 j ≠ index 3 (-1) →
         __getitem__ e' j
         = __getitem__ (ImageEnsemble.init [10; 20; 30] tt) j)
    ∧ _atoms e' = None.
Proof.
  apply (setitem_getitem (ImageEnsemble.init [10; 20; 30] tt) (-1) 99).
  by vm_compute.
Defined.

(** X9. With [n] image references, an index below [-n] or from [n] on makes
    reading, writing and deleting raise [IndexError], and a negative index [i]
    from [-n] on reads the item that [i + n] reads. *)
Theorem index_out_of_range {path threshold : Type}
    (e : @ImageEnsemble.t path threshold) (i : Z) (v : path) :
  (i < - __len__ e ∨ __len__ e ≤ i →
   __getitem__ e i = Raise IndexError
   ∧ __setitem__ e i v = Raise IndexError
   ∧ __delitem__ e i = Raise IndexError)
  ∧ (- __len__ e ≤ i < 0 → __getitem__ e i = __getitem__ e (i + __len__ e)).
Proof.
  unfold __len__, __getitem__, __setitem__, __delitem__. split.
  - intros Hi. by rewrite (index_invalid _ _ Hi).
  - intros Hi.
    destruct (index_valid (length (imgl e)) i) as [-> _]; [lia|].
    destruct (index_valid (length (imgl e)) (i + Z.of_nat (length (imgl e))))
      as [-> _]; [lia|].
    do 3 f_equal. rewrite <- (Z.mul_1_l (Z.of_nat (length (imgl e)))) at 2.
    symmetry. apply Z.mod_add. lia.
Qed.

Lemma index_out_of_range_witness :
  __getitem__ (ImageEnsemble.init [10; 20; 30] tt) 3 = Raise IndexError
  ∧ __setitem__ (ImageEnsemble.init [10; 20; 30] tt) 3 99 = Raise IndexError
  ∧ __delitem__ (ImageEnsemble.init [10; 20; 30] tt) 3 = Raise IndexError.
Proof.
  apply (index_out_of_range (ImageEnsemble.init [10; 20; 30] tt) 3 99).
  right. by vm_compute.
Defined.

(** X10. [insert(i, v)] with an index that fits a C [Py_ssize_t] (from
    -2^63 to 2^63 - 1) succeeds wherever the index points: the list grows by
    one, [v] is at the position that the index clamped to the list denotes,
    deleting that position gives the list back, and the cached atoms are not
    touched. With an index outside that range it raises [OverflowError]. *)
Theorem insert_then_delete {path threshold : Type}
    (e : @ImageEnsemble.t path threshold) (i : Z) (v : path) :
  (- 2 ^ 63 ≤ i < 2 ^ 63 →
   ∃ e1 k,
     insert e i v = OK e1
     ∧ k = insert_position (length (imgl e)) i
     ∧ __len__ e1 = __len__ e + 1
     ∧ __getitem__ e1 (Z.of_nat k) = OK v
     ∧ (∃ e', __delitem__ e1 (Z.of_nat k) = OK e' ∧ imgl e' = imgl e)
     ∧ _atoms e1 = _atoms e
     ∧ (0 ≤ i ≤ __len__ e → k = Z.to_nat i)
     ∧ (__len__ e ≤ i → k = length (imgl e))
     ∧ (- __len__ e ≤ i < 0 → k = Z.to_nat (i + __len__ e))
     ∧ (i < - __len__ e → k = 0%nat))
  ∧ (i < - 2 ^ 63 ∨ 2 ^ 63 ≤ i → insert e i v = Raise OverflowError).
Proof.
  split; [|apply insert_overflow]. intros Hfit.
  rewrite insert_fits by done. eexists _, _. split; [done|]. split; [done|].
  pose proof (insert_position_bound (length (imgl e)) i) as Hk.
  set (k := insert_position (length (imgl e)) i) in *.
  assert (length (take k (imgl e) ++ v :: drop k (imgl e))
          = S (length (imgl e))) as Hlen.
  { rewrite length_app, length_take. cbn [length].
    rewrite length_drop. lia. }
  assert (index (S (length (imgl e))) (Z.of_nat k) = OK k) as Hidx.
  { destruct (index_valid (S (length (imgl e))) (Z.of_nat k)) as [-> _];
      [lia|].
    rewrite Z.mod_small by lia. by rewrite Nat2Z.id. }
  unfold __len__, __getitem__, __delitem__. cbn [imgl _atoms].
  rewrite Hlen, Hidx. cbn [mbind result_bind].
  split; [lia|]. split; [|split; [|split; [done|]]].
  - rewrite lookup_app_r by (rewrite length_take; lia).
    rewrite length_take. replace (_ - _)%nat with 0%nat by lia. done.
  - eexists. split; [done|]. cbn [imgl].
    rewrite <- (length_take_le (imgl e) k) at 1 by done.
    by rewrite delete_middle, take_drop.
  - subst k. unfold insert_position. repeat split; intros Hi;
      destruct (Z.ltb_spec i 0); lia.
Qed.

Lemma insert_then_delete_witness :
  ∃ e1 k,
    insert (ImageEnsemble.init [10; 20; 30] tt) (-1) 25 = OK e1
    ∧ k = insert_position 3 (-1)
    ∧ __len__ e1 = 3 + 1
    ∧ __getitem__ e1 (Z.of_nat k) = OK 25
    ∧ (∃ e', __delitem__ e1 (Z.of_nat k) = OK e' ∧ imgl e' = [10; 20; 30])
    ∧ _atoms e1 = None
    ∧ (0 ≤ -1 ≤ 3 → k = Z.to_nat (-1))
    ∧ (3 ≤ -1 → k = 3%nat)
    ∧ (- 3 ≤ -1 < 0 → k = Z.to_nat (-1 + 3))
    ∧ (-1 < - 3 → k = 0%nat).
Proof.
  apply (insert_then_delete (ImageEnsemble.init [10; 20; 30] tt) (-1) 25).
  lia.
Defined.

(** X11. For an index in [-n, n), [del ensemble[i]] succeeds, the list is one
    shorter, the items before the position keep their place and the items
    after it move down by one; the cached atoms are not touched. *)
Theorem delitem_shifts {path threshold : Type}
    (e : @ImageEnsemble.t path threshold) (i : Z) :
  - __len__ e ≤ i < __len__ e →
  ∃ e' k,
    __delitem__ e i = OK e'
    ∧ index (length (imgl e)) i = OK k
    ∧ __len__ e' = __len__ e - 1
    ∧ (∀ j, (j < k)%nat → imgl e' !! j = imgl e !! j)
    ∧ (∀ j, (k ≤ j)%nat → imgl e' !! j = imgl e !! S j)
    ∧ _atoms e' = _atoms e.
Proof.
  unfold __len__. intros Hi.
  destruct (index_valid (length (imgl e)) i Hi) as [Hidx Hlt].
  unfold __delitem__. rewrite Hidx. cbn [mbind result_bind].
  eexists _, _. split; [done|]. split; [done|]. cbn [imgl _atoms].
  split; [rewrite length_delete by (by apply lookup_lt_is_Some); lia|].
  split; [|split; [|done]].
  - intros j Hj. by apply list_lookup_delete_lt.
  - intros j Hj. by apply list_lookup_delete_ge.
Qed.

Lemma delitem_shifts_witness :
  ∃ e' k,
    __delitem__ (ImageEnsemble.init [10; 20; 30] tt) (-2) = OK e'
    ∧ index 3 (-2) = OK k
    ∧ __len__ e' = 3 - 1
    ∧ (∀ j, (j < k)%nat → imgl e' !! j = [10; 20; 30] !! j)
    ∧ (∀ j, (k ≤ j)%nat → imgl e' !! j = [10; 20; 30] !! S j)
    ∧ _atoms e' = None.
Proof.
  apply (delitem_shifts (ImageEnsemble.init [10; 20; 30] tt) (-2)).
  by vm_compute.
Defined.

Module CacheFacts.

Local Open Scope nat_scope.

Section Cache.

Context {path threshold : Type}.

Abbreviation ensemble := (@ImageEnsemble.t path threshold).

(** The comprehension builds one atom per image reference, in order, with
    the threshold given and consecutive new identities. *)
Lemma materialize_atoms (next : nat) (th : threshold) (ims : list path) :
  materialize next th ims
  = (next + length ims, (materialize next th ims).2)
  ∧ image <$> (materialize next th ims).2 = ims
  ∧ atom_pow_th <$> (materialize next th ims).2 = replicate (length ims) th
  ∧ oid <$> (materialize next th ims).2 = seq next (length ims).
Proof.
  revert next. induction ims as [|im ims IH]; intros next.
  - cbn. repeat split. f_equal. lia.
  - cbn [materialize]. destruct (IH (S next)) as (E & H1 & H2 & H3).
    destruct (materialize (S next) th ims) as [next' l].
    cbn [fst snd] in *. injection E as ->.
    rewrite !fmap_cons, H1, H2, H3. cbn [image atom_pow_th oid length].
    repeat split. f_equal. lia.
Qed.

(** The first access to [atoms] of an instance that has no cached atoms. *)
Lemma atoms_first (next : nat) (e : ensemble) :
  _atoms e = None →
  ∃ l,
    atoms (next, e)
    = ((S next + length (imgl e), mk (imgl e) (pow_th e) (Some l)), l)
    ∧ image <$> l = imgl e
    ∧ atom_pow_th <$> l = replicate (length (imgl e)) (pow_th e)
    ∧ oid <$> l = seq (S next) (length (imgl e)).
Proof.
  intros Hc. cbn [atoms]. rewrite Hc.
  destruct (materialize_atoms (S next) (pow_th e) (imgl e))
    as (E & H1 & H2 & H3).
  rewrite E. eauto.
Qed.

(** An access to [atoms] of an instance with cached atoms. *)
Lemma atoms_cached_access (next : nat) (e : ensemble)
    (cached : list SingleImage) :
  _atoms e = Some cached →
  (length cached = length (imgl e) → length (imgl e) ≤ 256 →
   atoms (next, e) = ((next, e), cached))
  ∧ (length cached ≠ length (imgl e) ∨ 256 < length (imgl e) →
     ∃ l,
       atoms (next, e)
       = ((S next + length (imgl e), mk (imgl e) (pow_th e) (Some l)), l)
       ∧ image <$> l = imgl e
       ∧ oid <$> l = seq (S next) (length (imgl e))).
Proof.
  intros Hc. cbn [atoms]. rewrite Hc.
  destruct (int_is _ _) eqn:His; cbn [negb].
  - apply int_is_len in His as [Hlen Hsmall]. split; [done|].
    intros [?|?]; lia.
  - split.
    + intros Hlen Hsmall.
      assert (int_is (Z.of_nat (length cached)) (Z.of_nat (length (imgl e)))
              = true) by (apply int_is_len; lia).
      congruence.
    + intros _.
      destruct (materialize_atoms (S next) (pow_th e) (imgl e))
        as (E & H1 & _ & H3).
      rewrite E. eauto.
Qed.

End Cache.

End CacheFacts.

Import CacheFacts.

(** X12. The first access to [atoms] of a new ensemble creates one atom per
    image reference, in the order of the list, each with the threshold of the
    ensemble, all of them new and different objects, and caches them. *)
Theorem atoms_first_access {path threshold : Type} (next : nat)
    (imgpaths : list path) (th : threshold) :
  let '((next', e'), l) := atoms (next, ImageEnsemble.init imgpaths th) in
  image <$> l = imgpaths
  ∧ Forall (λ a, atom_pow_th a = th) l
  ∧ NoDup (oid <$> l)
  ∧ Forall (λ a, (next < oid a < next')%nat) l
  ∧ _atoms e' = Some l
  ∧ imgl e' = imgpaths.
Proof.
  destruct (atoms_first next (ImageEnsemble.init imgpaths th) eq_refl)
    as (l & -> & H1 & H2 & H3).
  cbn [imgl pow_th ImageEnsemble.init] in *.
  split; [done|]. split; [|split; [|split; [|done]]].
  - assert (Forall (λ t, t = th) (atom_pow_th <$> l)) as H
      by (rewrite H2; by apply Forall_replicate).
    rewrite Forall_fmap in H. exact H.
  - rewrite H3. apply NoDup_seq.
  - assert (Forall (λ o, (next < o < S next + length imgpaths)%nat)
              (oid <$> l)) as H.
    { rewrite H3. apply Forall_forall. intros o Ho.
      apply elem_of_seq in Ho. lia. }
    rewrite Forall_fmap in H. exact H.
Qed.

(** X13. With at most 256 image references, a same-length replacement
    [ensemble[i] = v] between two accesses to [atoms] of a new ensemble leaves
    the cache in use: the second access returns the very atoms of the first
    and creates no object, so that the atoms still wrap the old image list and
    not the new one when [v] differs from the item it replaced. *)
Theorem atoms_stale_after_replacement {path threshold : Type} (next : nat)
    (imgpaths : list path) (th : threshold) (i : Z) (v old : path) :
  (length imgpaths ≤ 256)%nat →
  __getitem__ (ImageEnsemble.init imgpaths th) i = OK old → v ≠ old →
  let '((n1, e1), l1) := atoms (next, ImageEnsemble.init imgpaths th) in
  ∃ e2,
    __setitem__ e1 i v = OK e2
    ∧ atoms (n1, e2) = ((n1, e2), l1)
    ∧ image <$> l1 = imgpaths
    ∧ image <$> l1 ≠ imgl e2.
Proof.
  intros Hsmall Hget Hv.
  destruct (atoms_first next (ImageEnsemble.init imgpaths th) eq_refl)
    as (l & -> & H1 & _ & _).
  cbn [imgl pow_th ImageEnsemble.init] in *.
  unfold __getitem__, __setitem__ in *.
  cbn [imgl pow_th _atoms ImageEnsemble.init] in *.
  destruct (index (length imgpaths) i) as [k|] eqn:Hk;
    cbn [mbind result_bind] in *; [|done].
  destruct (imgpaths !! k) as [x|] eqn:Hx; [|done]. injection Hget as ->.
  eexists. split; [done|]. split; [|split; [done|]].
  - match goal with |- atoms (_, ?e2) = _ =>
      destruct (atoms_cached_access (S next + length imgpaths) e2 l eq_refl)
        as [Hkeep _] end.
    apply Hkeep; cbn [imgl]; rewrite length_insert; [|done].
    by rewrite <- H1, length_fmap.
  - cbn [imgl]. rewrite H1. intros E.
    assert (<[k:=v]> imgpaths !! k = Some v) as Hv'
      by (apply list_lookup_insert_eq; by eapply lookup_lt_Some).
    rewrite <- E in Hv'. congruence.
Qed.

Lemma atoms_stale_after_replacement_witness :
  let '((n1, e1), l1) := atoms (0%nat, ImageEnsemble.init [10; 20; 30] tt) in
  ∃ e2,
    __setitem__ e1 1 99 = OK e2
    ∧ atoms (n1, e2) = ((n1, e2), l1)
    ∧ image <$> l1 = [10; 20; 30]
    ∧ image <$> l1 ≠ imgl e2.
Proof.
  apply (atoms_stale_after_replacement 0 [10; 20; 30] tt 1 99 20).
  - cbn. lia.
  - by vm_compute.
  - discriminate.
Defined.

(** X14. When the mutations between two accesses to [atoms] of a new ensemble
    change the length of the image list, the second access creates the atoms
    anew: one per reference of the list as it is now, in order, each a new
    object, different from every atom of the first access. *)
Theorem atoms_rebuilt_after_length_change {path threshold : Type}
    (next : nat) (imgpaths : list path) (th : threshold)
    (ms : list (@mutation path)) :
  length (imgl (foldl mutate (ImageEnsemble.init imgpaths th) ms))
  ≠ length imgpaths →
  let '((n1, e1), l1) := atoms (next, ImageEnsemble.init imgpaths th) in
  let '((n2, e2), l2) := atoms (n1, foldl mutate e1 ms) in
  image <$> l2 = imgl (foldl mutate (ImageEnsemble.init imgpaths th) ms)
  ∧ _atoms e2 = Some l2
  ∧ NoDup (oid <$> l2)
  ∧ ∀ a1 a2, a1 ∈ l1 → a2 ∈ l2 → (oid a1 < oid a2)%nat.
Proof.
  intros Hlen.
  destruct (atoms_first next (ImageEnsemble.init imgpaths th) eq_refl)
    as (l1 & -> & H1 & _ & H3).
  cbn [imgl pow_th ImageEnsemble.init] in *.
  pose proof (mutations_cache (ImageEnsemble.init imgpaths th) ms (Some l1))
    as Hm. cbn [imgl pow_th ImageEnsemble.init] in Hm. rewrite Hm.
  match goal with |- context [atoms (?n, ?e)] =>
    destruct (atoms_cached_access n e l1 eq_refl) as [_ Hnew] end.
  destruct Hnew as (l2 & -> & H1' & H3').
  { left. cbn [imgl]. rewrite <- H1, length_fmap in Hlen. congruence. }
  cbn [imgl _atoms] in *. split; [done|]. split; [done|]. split.
  - rewrite H3'. apply NoDup_seq.
  - intros a1 a2 Ha1 Ha2.
    assert (oid a1 ∈ oid <$> l1) as Ho1 by (apply list_elem_of_fmap; eauto).
    assert (oid a2 ∈ oid <$> l2) as Ho2 by (apply list_elem_of_fmap; eauto).
    rewrite H3 in Ho1. rewrite H3' in Ho2.
    apply elem_of_seq in Ho1, Ho2. lia.
Qed.

Lemma atoms_rebuilt_after_length_change_witness :
  let '((n1, e1), l1) := atoms (0%nat, ImageEnsemble.init [10; 20; 30] tt) in
  let '((n2, e2), l2) :=
    atoms (n1, foldl mutate e1 [Insert 1 15; DelItem 0; Insert (-1) 25]) in
  image <$> l2
  = imgl (foldl mutate (ImageEnsemble.init [10; 20; 30] tt)
            [Insert 1 15; DelItem 0; Insert (-1) 25])
  ∧ _atoms e2 = Some l2
  ∧ NoDup (oid <$> l2)
  ∧ ∀ a1 a2, a1 ∈ l1 → a2 ∈ l2 → (oid a1 < oid a2)%nat.
Proof.
  apply (atoms_rebuilt_after_length_change 0 [10; 20; 30] tt
           [Insert 1 15; DelItem 0; Insert (-1) 25]).
  by vm_compute.
Defined.

(** X15. [_clean] calls the hook of every atom that the [atoms] property
    gives at that moment, once each. On an ensemble whose atoms were never
    asked for, it creates them to clean them. After an access, with at most
    256 image references these are the atoms that the access returned and no
    object is created; with more than 256 they are new atoms, none of them
    one that the access returned. *)
Theorem clean_reaches {path threshold : Type} (next : nat)
    (imgpaths : list path) (th : threshold) :
  (_clean (next, ImageEnsemble.init imgpaths th)).2
  = seq (S next) (length imgpaths)
  ∧ let '((n1, e1), l1) := atoms (next, ImageEnsemble.init imgpaths th) in
    let '((n2, e2), cleaned) := _clean (n1, e1) in
    NoDup cleaned
    ∧ length cleaned = length imgpaths
    ∧ ((length imgpaths ≤ 256)%nat → cleaned = oid <$> l1 ∧ n2 = n1)
    ∧ ((256 < length imgpaths)%nat → ∀ o, o ∈ cleaned → o ∉ oid <$> l1).
Proof.
  unfold _clean.
  destruct (atoms_first next (ImageEnsemble.init imgpaths th) eq_refl)
    as (l1 & -> & H1 & _ & H3).
  cbn [imgl pow_th ImageEnsemble.init snd] in *. split; [done|].
  match goal with |- context [atoms (?n, ?e)] =>
    destruct (atoms_cached_access n e l1 eq_refl) as [Hkeep Hnew] end.
  cbn [imgl] in *.
  assert (length l1 = length imgpaths) as Hlen
    by (by rewrite <- H1, length_fmap).
  destruct (decide (length imgpaths ≤ 256)%nat) as [Hsmall|Hbig].
  - rewrite (Hkeep Hlen Hsmall). rewrite H3. split; [apply NoDup_seq|].
    split; [by rewrite length_seq|]. split; [done | lia].
  - destruct Hnew as (l2 & -> & _ & H3'); [lia|]. rewrite H3'.
    split; [apply NoDup_seq|]. split; [by rewrite length_seq|].
    split; [lia|]. intros _ o Ho Ho1. rewrite H3 in Ho1.
    apply elem_of_seq in Ho, Ho1. lia.
Qed.

Module CollectFacts.

Local Open Scope nat_scope.

Section Collect.

Context {V : Type}.
Variable vadd : V → V → V.
Variable vzero : V.

Abbreviation array := (list (option V)).

Lemma arr_add_masked (a b : array) (i : nat) :
  i < length a → length a = length b →
  arr_add vadd a b !! i = Some None
  ↔ a !! i = Some None ∨ b !! i = Some None.
Proof.
  intros Hi Hlen. unfold arr_add. rewrite lookup_zip_with.
  destruct (lookup_lt_is_Some_2 a i Hi) as [x ->].
  destruct (lookup_lt_is_Some_2 b i) as [y ->]; [lia|].
  destruct x, y; cbn; split; intros H; try done; try (by left); try (by right);
    by destruct H.
Qed.

(** The loop masks a pixel when what it started from or one of the arrays
    it went through has it masked. *)
Lemma accumulate_masked (n : nat) (queues : list array) (acc : array) :
  Forall (λ q, length q = n) queues → length acc = n →
  ∃ S0,
    foldl (λ S' s_comp, S0 ← S'; ma_add vadd s_comp S0) (OK acc) queues
    = OK S0
    ∧ length S0 = n
    ∧ ∀ i, i < n →
        S0 !! i = Some None
        ↔ acc !! i = Some None ∨ ∃ q, q ∈ queues ∧ q !! i = Some None.
Proof.
  intros Hq. revert acc. induction Hq as [|q queues Hlen _ IH];
    intros acc Hacc.
  - exists acc. cbn [foldl]. split; [done|]. split; [done|]. intros i Hi.
    split; [by left|]. intros [?|(q & Hq & _)]; [done|].
    by apply elem_of_nil in Hq.
  - cbn [foldl mbind result_bind].
    rewrite (ma_add_same_shape vadd n) by done.
    destruct (IH (arr_add vadd q acc)) as (S0 & E & HS & Hmask);
      [by apply arr_add_length|].
    exists S0. split; [done|]. split; [done|]. intros i Hi.
    rewrite (Hmask i Hi), (arr_add_masked q acc i) by lia. split.
    + intros [[?|?]|(q' & Hq' & ?)]; [right|by left|right].
      * exists q. split; [by left | done].
      * exists q'. split; [by right | done].
    + intros [?|(q' & Hq' & ?)]; [by left; right|].
      apply elem_of_cons in Hq' as [->|Hq']; [by left; left|].
      right. eauto.
Qed.

End Collect.

End CollectFacts.

Import CollectFacts.

(** X16. On partial results that all have the global shape, the accumulation
    loop of [calculate_S] returns an array of the global shape, and a pixel of
    it is masked exactly when at least one partial result has that pixel
    masked; [calculate_S] is this loop on what the workers send. *)
Theorem collect_S_masks {V atom : Type} (vadd : V → V → V) (vzero : V)
    (s_component : atom → list (option V)) (global_shape : nat)
    (queues : list (list (option V))) :
  Forall (λ q, length q = global_shape) queues →
  (∀ atoms n_procs,
     calculate_S vadd vzero s_component global_shape atoms n_procs
     = (qs ← for_each (combinator_stack vadd s_component)
                      (chunk_it atoms n_procs);
        collect_S vadd vzero global_shape qs))
  ∧ ∃ S0,
      collect_S vadd vzero global_shape queues = OK S0
      ∧ length S0 = global_shape
      ∧ ∀ i, (i < global_shape)%nat →
          S0 !! i = Some None ↔ ∃ q, q ∈ queues ∧ q !! i = Some None.
Proof.
  intros Hq. split; [done|]. unfold collect_S.
  destruct (accumulate_masked vadd global_shape queues
              (zeros vzero global_shape) Hq)
    as (S0 & E & HS & Hmask); [apply length_replicate|].
  exists S0. split; [done|]. split; [done|]. intros i Hi.
  rewrite (Hmask i Hi). unfold zeros. rewrite lookup_replicate_2 by done.
  split; [intros [?|?]; done | by right].
Qed.

Lemma collect_S_masks_witness :
  ∃ S0,
    collect_S Z.add 0 3 [[Some 1; None; Some 1]; [Some 2; Some 2; Some 2]]
    = OK S0
    ∧ length S0 = 3%nat
    ∧ ∀ i, (i < 3)%nat →
        S0 !! i = Some None
        ↔ ∃ q, q ∈ [[Some 1; None; Some 1]; [Some 2; Some 2; Some 2]]
               ∧ q !! i = Some None.
Proof.
  apply (collect_S_masks (atom:=unit) Z.add 0 (λ _, []) 3
           [[Some 1; None; Some 1]; [Some 2; Some 2; Some 2]]).
  repeat (apply Forall_cons_2; [done|]). apply Forall_nil_2.
Defined.

(** * The layout helper *)

Module PrimesFacts.

Import Plot.

Lemma elem_of_divisors (n d : Z) :
  d ∈ divisors n ↔ 2 ≤ d ≤ n / 2 ∧ Z.divide d n.
Proof.
  unfold divisors, range. rewrite list_elem_of_filter, elem_of_seqZ.
  split.
  - intros [Hmod Hd]. split; [lia|]. apply Z.mod_divide; [lia|done].
  - intros [Hd Hdiv]. split; [|lia]. apply Z.mod_divide; [lia|done].
Qed.

(** A divisor of [n] other than [n] is at most half of it. *)
Lemma proper_divisor_half (n k : Z) :
  0 < k < n → Z.divide k n → k ≤ n / 2.
Proof.
  intros Hk [m Hm]. apply Z.div_le_lower_bound; [lia|].
  assert (2 ≤ m) by nia. nia.
Qed.

(** The list [prims] holds the prime divisors of [n] up to half of it. *)
Lemma elem_of_prims (n d : Z) :
  d ∈ prims n ↔ Z.prime d ∧ Z.divide d n ∧ d ≤ n / 2.
Proof.
  unfold prims. rewrite list_elem_of_filter, elem_of_divisors. split.
  - intros (Hall & Hd & Hdiv). split; [|split; [done|lia]].
    split; [lia|]. intros k Hk Hkd.
    assert (k ∈ divisors n) as Hin.
    { apply elem_of_divisors. split; [lia | by etransitivity]. }
    assert (d mod k ≠ 0) as Hne.
    { eapply (proj1 (Forall_forall _ _) Hall).
      apply list_elem_of_filter. split; [lia|done]. }
    apply Hne. apply Z.mod_divide; [lia|done].
  - intros (Hp & Hdiv & Hd). pose proof (Z.prime_ge_2 d Hp).
    split; [|by split; [lia|]].
    apply Forall_forall. intros od Hod Hmod.
    apply list_elem_of_filter in Hod as [Hne Hod].
    apply elem_of_divisors in Hod as [Hod _].
    apply Z.mod_divide in Hmod; [|lia].
    destruct (Z.divide_prime_r od d Hp Hmod) as [?|[?|[?|?]]]; lia.
Qed.

Lemma py_max_spec (l : list Z) :
  l ≠ [] → py_max l ∈ l ∧ ∀ x, x ∈ l → x ≤ py_max l.
Proof.
  destruct l as [|a l]; [done|]. intros _.
  change (py_max (a :: l)) with (foldr Z.max a (a :: l)).
  assert (∀ k : list Z,
            (foldr Z.max a k = a ∨ foldr Z.max a k ∈ k)
            ∧ a ≤ foldr Z.max a k
            ∧ ∀ x, x ∈ k → x ≤ foldr Z.max a k) as H.
  { induction k as [|y k (IH1 & IH2 & IH3)].
    - cbn [foldr]. split; [by left|]. split; [lia|]. intros x Hx.
      by apply elem_of_nil in Hx.
    - cbn [foldr]. split; [|split].
      + destruct (Z.max_spec y (foldr Z.max a k)) as [[_ ->]|[_ ->]].
        * destruct IH1 as [?|?]; [by left | by right; right].
        * right. by left.
      + lia.
      + intros x Hx. apply elem_of_cons in Hx as [->|Hx]; [lia|].
        specialize (IH3 x Hx). lia. }
  destruct (H (a :: l)) as (H1 & H2 & H3). split; [|done].
  destruct H1 as [H1|H1]; [|done]. rewrite H1. by left.
Qed.

(** A number from 2 on is prime or has a divisor strictly in between. *)
Lemma prime_or_divisor (n : Z) :
  2 ≤ n → Z.prime n ∨ ∃ k, 1 < k < n ∧ Z.divide k n.
Proof.
  intros Hn. destruct (Znumtheory.prime_dec n) as [Hp|Hnp].
  - left. by apply Znumtheory.prime_alt.
  - right. apply Znumtheory.not_prime_divide; [lia|done].
Qed.

(** A number from 2 on has a prime divisor. *)
Lemma prime_divisor_exists (n : Z) :
  2 ≤ n → ∃ p, Z.prime p ∧ Z.divide p n.
Proof.
  intros Hn. assert (∃ m : nat, n ≤ Z.of_nat m) as [m Hm]
    by (exists (Z.to_nat n); lia).
  revert n Hn Hm. induction m as [|m IH]; intros n Hn Hm; [lia|].
  destruct (prime_or_divisor n Hn) as [Hp|(k & Hk & Hdiv)]; [by exists n|].
  destruct (IH k) as (p & Hp & Hpk); [lia..|].
  exists p. split; [done | by etransitivity].
Qed.

Lemma prims_nil_prime (n : Z) : 2 ≤ n → (prims n = [] ↔ Z.prime n).
Proof.
  intros Hn. split.
  - intros Hnil.
    destruct (prime_or_divisor n Hn) as [Hp|(k & Hk & Hdiv)]; [done|].
    exfalso.
    destruct (prime_divisor_exists k) as (p & Hp & Hpk); [lia|].
    assert (p ∈ prims n) as Hin.
    { apply elem_of_prims. split; [done|]. split; [by etransitivity|].
      pose proof (Z.prime_ge_2 p Hp).
      assert (p ≤ k) by (apply Z.divide_pos_le; [lia|done]).
      apply proper_divisor_half; [lia | by etransitivity]. }
    rewrite Hnil in Hin. by apply elem_of_nil in Hin.
  - intros Hp. destruct (prims n) as [|d l] eqn:E; [done|]. exfalso.
    assert (d ∈ prims n) as Hd by (rewrite E; by left).
    apply elem_of_prims in Hd as (Hpd & Hdiv & Hhalf).
    pose proof (Z.prime_ge_2 d Hpd).
    assert (n / 2 < n) by (apply Z.div_lt; lia).
    destruct (Z.divide_prime_r d n Hp Hdiv) as [?|[?|[?|?]]]; lia.
Qed.

Lemma primes_unfold (n : Z) :
  primes n = match prims n with [] => n | _ :: _ => py_max (prims n) end.
Proof. unfold primes. by destruct (prims n). Qed.

(** From 2 on, [primes] gives the largest prime divisor. *)
Lemma primes_spec (n : Z) :
  2 ≤ n →
  Z.prime (primes n) ∧ Z.divide (primes n) n
  ∧ ∀ p, Z.prime p → Z.divide p n → p ≤ primes n.
Proof.
  intros Hn. rewrite primes_unfold.
  destruct (prims n) as [|d l] eqn:E.
  - apply prims_nil_prime in E; [|done]. split; [done|]. split; [done|].
    intros p _ Hdiv. apply Z.divide_pos_le; [lia|done].
  - rewrite <- E. destruct (py_max_spec (prims n)) as [Hin Hmax];
      [by rewrite E|].
    apply elem_of_prims in Hin as (Hp & Hdiv & Hhalf).
    split; [done|]. split; [done|]. intros p Hpp Hpn.
    destruct (Z.le_gt_cases p (n / 2)) as [Hle|Hgt].
    + apply Hmax, elem_of_prims. done.
    + exfalso. pose proof (Z.prime_ge_2 p Hpp).
      assert (p ≤ n) by (apply Z.divide_pos_le; [lia|done]).
      assert (p = n) as ->.
      { destruct (decide (p = n)); [done|].
        assert (p ≤ n / 2) by (apply proper_divisor_half; [lia|done]). lia. }
      assert (prims n = []) as Hnil by by apply prims_nil_prime.
      congruence.
Qed.

End PrimesFacts.

Import PrimesFacts.

(** X17. For every [n] from 2 on, [primes(n)] is the largest prime divisor of
    [n]: it is prime, it divides [n], and no prime divisor of [n] is above
    it. *)
Theorem primes_largest_prime_divisor (n : Z) :
  2 ≤ n →
  Z.prime (Plot.primes n)
  ∧ Z.divide (Plot.primes n) n
  ∧ ∀ p, Z.prime p → Z.divide p n → p ≤ Plot.primes n.
Proof. apply primes_spec. Qed.

Lemma primes_largest_prime_divisor_witness :
  Plot.primes 84 = 7
  ∧ Z.prime (Plot.primes 84)
  ∧ Z.divide (Plot.primes 84) 84
  ∧ ∀ p, Z.prime p → Z.divide p 84 → p ≤ Plot.primes 84.
Proof.
  split; [by vm_compute|]. apply (primes_largest_prime_divisor 84). lia.
Defined.

(** X18. [primes(n)] gives [n] back for every [n] up to 1, which has no
    prime divisor to give; from 2 on it gives [n] back exactly when [n] is
    prime. *)
Theorem primes_fixed (n : Z) :
  (n ≤ 1 → Plot.primes n = n)
  ∧ (2 ≤ n → (Plot.primes n = n ↔ Z.prime n)).
Proof.
  split.
  - intros Hn. rewrite primes_unfold.
    destruct (Plot.prims n) as [|d l] eqn:E; [done|]. exfalso.
    assert (d ∈ Plot.prims n) as Hd by (rewrite E; by left).
    apply elem_of_prims in Hd as (Hp & _ & Hhalf).
    pose proof (Z.prime_ge_2 d Hp).
    assert (n / 2 < 1) by (apply Z.div_lt_upper_bound; lia). lia.
  - intros Hn. split.
    + intros E. rewrite <- E. by apply primes_spec.
    + intros Hp. rewrite primes_unfold.
      by rewrite (proj2 (prims_nil_prime n Hn) Hp).
Qed.

(** * The stacks of [calculate_R] *)

Module StackFacts.

Local Open Scope nat_scope.

Section Stacks.

Context {img fimg : Type}.

Abbreviation queue := (list img * list fimg)%type.

Lemma extend_stacks_join (queues : list queue) :
  extend_stacks queues = (mjoin (queues.*1), mjoin (queues.*2)).
Proof.
  unfold extend_stacks.
  assert (∀ (a : list img) (b : list fimg),
            foldl (λ stk q, (stk.1 ++ q.1, stk.2 ++ q.2)) (a, b) queues
            = (a ++ mjoin (queues.*1), b ++ mjoin (queues.*2))) as H;
    [|apply (H [] [])].
  induction queues as [|q queues IH]; intros a b.
  - cbn. by rewrite !app_nil_r.
  - cbn [foldl fst snd]. rewrite IH, !fmap_cons.
    change (mjoin (q.1 :: queues.*1)) with (q.1 ++ mjoin (queues.*1)).
    change (mjoin (q.2 :: queues.*2)) with (q.2 ++ mjoin (queues.*2)).
    by rewrite !app_assoc.
Qed.

(** Entries at one position of the two concatenations come from one
    position of one queue. *)
Lemma join_aligned (queues : list queue) :
  Forall (λ q, length q.1 = length q.2) queues →
  length (mjoin (queues.*1)) = length (mjoin (queues.*2))
  ∧ ∀ i x y,
      mjoin (queues.*1) !! i = Some x → mjoin (queues.*2) !! i = Some y →
      ∃ q j, q ∈ queues ∧ q.1 !! j = Some x ∧ q.2 !! j = Some y.
Proof.
  induction 1 as [|q queues Hq _ [IHlen IH]]; [done|].
  rewrite !fmap_cons.
  change (mjoin (q.1 :: queues.*1)) with (q.1 ++ mjoin (queues.*1)).
  change (mjoin (q.2 :: queues.*2)) with (q.2 ++ mjoin (queues.*2)).
  split; [rewrite !length_app; lia|]. intros i x y Hx Hy.
  destruct (decide (i < length q.1)) as [Hi|Hi].
  - rewrite lookup_app_l in Hx by done. rewrite lookup_app_l in Hy by lia.
    exists q, i. split; [by left | done].
  - rewrite lookup_app_r in Hx by lia. rewrite lookup_app_r in Hy by lia.
    rewrite <- Hq in Hy. destruct (IH _ _ _ Hx Hy) as (q' & j & Hin & ?).
    exists q', j. split; [by right | done].
Qed.

End Stacks.

End StackFacts.

Import StackFacts.

(** X19. The collection loop of [calculate_R] gives the concatenation, in
    launch order, of the lists that the queues deliver, for the spatial and
    for the Fourier stack; when every queue delivers two lists of one length,
    the two stacks have one length and the entries at one position of the two
    stacks come from one position of one queue. *)
Theorem extend_stacks_aligned {img fimg : Type}
    (queues : list (list img * list fimg)) :
  Forall (λ q, length q.1 = length q.2) queues →
  extend_stacks queues = (mjoin (queues.*1), mjoin (queues.*2))
  ∧ length (extend_stacks queues).1 = length (extend_stacks queues).2
  ∧ ∀ i x y,
      (extend_stacks queues).1 !! i = Some x →
      (extend_stacks queues).2 !! i = Some y →
      ∃ q j, q ∈ queues ∧ q.1 !! j = Some x ∧ q.2 !! j = Some y.
Proof.
  intros Hq. rewrite extend_stacks_join. cbn [fst snd].
  split; [done|]. by apply join_aligned.
Qed.

Lemma extend_stacks_aligned_witness :
  extend_stacks [([1; 2], [true; false]); ([3], [true])]
  = ([1; 2; 3], [true; false; true])
  ∧ length (extend_stacks [([1; 2], [true; false]); ([3], [true])]).1
    = length (extend_stacks [([1; 2], [true; false]); ([3], [true])]).2.
Proof.
  split; [by vm_compute|].
  apply (extend_stacks_aligned [([1; 2], [true; false]); ([3], [true])]).
  repeat (apply Forall_cons_2; [done|]). apply Forall_nil_2.
Defined.
